(** * FAL-tools: the season scraper [fal_scraper_v2.0.py]

    A shallow embedding of the parts of the scraper that decide what ends
    up in the report: the retrying fetch of one title, the batch fetch and
    its failure list, the status classifier [calculate_variables], the
    sort stage [sort_data], the row renderer of [populate_sheet] and the
    counting-period filter of [create_posts_sheet]; further on, the logger
    [log_print], the id check, the season and period computation, the
    forum requests ([fetch_page], [fetch_last_post], [fetch_thread_details],
    [fetch_forum_data]) and the post counts.

    Conventions used throughout:
    - a Python [int] is a [Z];
    - a Python [float] that the script obtains by dividing two integers
      (or reads as a score) is the exact rational it denotes, a [Q];
    - a function that can raise returns an [option]; [None] is "raised";
    - [/] on [Q] is total (a zero divisor gives 0): where a property is
      about a quotient that must not raise, the quotient is written with
      [py_truediv], which is [None] at a zero divisor;
    - a Python [dict] whose iteration order the script relies on is an
      association list in insertion order ([pydict]);
    - a Python [set] of user names is a [gset string]. *)

From Stdlib Require Import ZArith QArith Qround Bool List Permutation Sorting.Sorted Lia.
From Stdlib Require Import Strings.String Strings.Ascii DecimalString.
From Stdlib Require Import DecimalZ.
From stdpp Require Import base option list gmap strings.

Local Open Scope Z_scope.

(** ** User variables (the settings block at the top of the script) *)

Record settings := {
  max_conc_requests : Z;
  retry_limit : Z;
  sort_column : string;
  enable_posts : bool
}.

(** ** The JSON record of one title

    Only the fields the script reads.  An absent key is [None].  A count
    under [statistics.status] is stored the way [int(...)] sees it. *)

Inductive count_field :=
| IntLike (z : Z)   (* a value [v] with [int(v) = z] *)
| NotInt.           (* a value on which [int(...)] raises (null, text, ...) *)

Record anime := {
  a_id : option Z;
  a_title : option string;
  a_mean : option Q;
  a_num_favorites : option Z;
  a_status : option string;
  a_watching : option count_field;
  a_completed : option count_field;
  a_dropped : option count_field;
  a_plan_to_watch : option count_field
}.

(** A value of [datas]: a JSON record, or a text (an error message). *)
Inductive row :=
| RData (a : anime)
| RErr (msg : string).

Definition isinstance_str (x : row) : bool :=
  match x with RErr _ => true | RData _ => false end.

(** ** Status codes *)

Inductive status_code := NYA | PRE | AIR | FINq | FIN | UNK | ERR.

(** ** [calculate_variables] *)

(** [int(stats.get(k, 0))]: absent key reads 0, otherwise [int] of the value. *)
Definition int_or_zero (f : option count_field) : option Z :=
  match f with
  | None => Some 0
  | Some (IntLike z) => Some z
  | Some NotInt => None
  end.

(** [math.ceil(200 + ptw // 250)]: [//] is floor division on integers, and
    [math.ceil] of an integer is that integer. *)
Definition preair_noise_floor (ptw : Z) : Z := 200 + ptw / 250.

(** [math.ceil(100 + watching / 30)]: [/] is true division. *)
Definition comp_noise_floor (watching : Z) : Z :=
  Qceiling (100 + inject_Z watching / 30)%Q.

(** The 8-tuple returned by [calculate_variables]. *)
Record derived := {
  d_status_code : status_code;
  d_watching : Z;
  d_completed : Z;
  d_dropped : Z;
  d_ptw : Z;
  d_watch_comp : Z;
  d_watch_drop : Z;
  d_active_ratio : Q
}.

Definition finish (code : status_code) (watching completed dropped ptw : Z) : derived :=
  let watch_comp := watching + completed in
  let watch_drop := watch_comp + dropped in
  let active_ratio :=
    if 0 <? ptw then (inject_Z watch_comp / inject_Z ptw)%Q else 0%Q in
  {| d_status_code := code; d_watching := watching; d_completed := completed;
     d_dropped := dropped; d_ptw := ptw; d_watch_comp := watch_comp;
     d_watch_drop := watch_drop; d_active_ratio := active_ratio |}.

Definition classify (status : string) (watching completed dropped ptw : Z) : derived :=
  let preair := preair_noise_floor ptw in
  let comp := comp_noise_floor watching in
  if String.eqb status "not_yet_aired" then
    if watching <? preair
    then finish NYA 0 0 0 ptw
    else finish PRE watching 0 dropped ptw
  else if String.eqb status "finished_airing" then
    finish FIN watching completed dropped ptw
  else if String.eqb status "currently_airing" then
    if completed <? comp
    then finish AIR watching 0 dropped ptw
    else finish FINq watching completed dropped ptw
  else finish UNK watching completed dropped ptw.

Definition calculate_variables (data : anime) : option derived :=
  let status := default ""%string (a_status data) in
  watching ← int_or_zero (a_watching data);
  completed ← int_or_zero (a_completed data);
  dropped ← int_or_zero (a_dropped data);
  ptw ← int_or_zero (a_plan_to_watch data);
  Some (classify status watching completed dropped ptw).

(** A record is well formed when every count that is present converts. *)
Definition count_ok (f : option count_field) : Prop := f ≠ Some NotInt.

Definition well_formed (data : anime) : Prop :=
  count_ok (a_watching data) ∧ count_ok (a_completed data) ∧
  count_ok (a_dropped data) ∧ count_ok (a_plan_to_watch data).

(** The count as the script reads it, for a well-formed record. *)
Definition read_count (f : option count_field) : Z :=
  match f with Some (IntLike z) => z | _ => 0 end.

Definition raw_status (data : anime) : string := default ""%string (a_status data).

(** The counts the specification calls nonnegative integers. *)
Definition nonneg_counts (data : anime) : Prop :=
  well_formed data ∧
  0 <= read_count (a_watching data) ∧ 0 <= read_count (a_completed data) ∧
  0 <= read_count (a_dropped data) ∧ 0 <= read_count (a_plan_to_watch data).

(** ** [fetch_anime_data]: one title, with retries *)

(** What one [session.get] attempt can end in. *)
Inductive outcome :=
| Body (j : option anime)   (* status 2xx; [response.json()], JSON null is [None] *)
| HttpError (status : Z)    (* [raise_for_status()]: a [ClientResponseError] *)
| ClientErr                 (* any other [ClientError] *)
| OtherExc.                 (* any other [Exception] *)

(** The remote side: what attempt number [k] for title [id] ends in. *)
Definition transport := Z → nat → outcome.

Inductive attempt_result :=
| Return (r : option anime)
| Retry.

(** The body of the [for attempt in range(attempts)] loop. *)
Definition try_once (attempts attempt : nat) (o : outcome) : attempt_result :=
  match o with
  | Body j => Return j
  | HttpError s =>
      if s =? 404 then Return None
      else if (s =? 504) || Nat.eqb attempt (attempts - 1) then Return None
      else Retry
  | ClientErr | OtherExc =>
      if Nat.eqb attempt (attempts - 1) then Return None else Retry
  end.

Fixpoint fetch_loop (get : nat → outcome) (attempts attempt remaining : nat)
  : option anime :=
  match remaining with
  | O => None      (* the [return None] after the loop *)
  | S r =>
      match try_once attempts attempt (get attempt) with
      | Return x => x
      | Retry => fetch_loop get attempts (S attempt) r
      end
  end.

(** [attempts = max(1, retry_limit)] *)
Definition attempts_of (cfg : settings) : nat := Z.to_nat (Z.max 1 (retry_limit cfg)).

Definition fetch_anime_data (cfg : settings) (get : nat → outcome) : option anime :=
  fetch_loop get (attempts_of cfg) 0 (attempts_of cfg).

(** [response is None] *)
Definition is_failure {B} (o : option B) : bool :=
  match o with None => true | Some _ => false end.

(** What [fetch_anime_data] returns for one title: [None] is a failure. *)
Definition response (cfg : settings) (tr : transport) (id : Z) : option anime :=
  fetch_anime_data cfg (tr id).

(** ** Python dictionaries in insertion order *)

Definition pydict (V : Type) := list (Z * V).

(** [d[k] = v]: a key already present keeps its place. *)
Fixpoint dict_set {V} (k : Z) (v : V) (d : pydict V) : pydict V :=
  match d with
  | [] => [(k, v)]
  | (k', v') :: d' =>
      if k' =? k then (k', v) :: d' else (k', v') :: dict_set k v d'
  end.

Fixpoint dict_get {V} (k : Z) (d : pydict V) : option V :=
  match d with
  | [] => None
  | (k', v') :: d' => if k' =? k then Some v' else dict_get k d'
  end.

(** [k in d] *)
Definition dict_mem {V} (k : Z) (d : pydict V) : bool :=
  match dict_get k d with Some _ => true | None => false end.

Definition dict_values {V} (d : pydict V) : list V := map snd d.
Definition dict_keys {V} (d : pydict V) : list Z := map fst d.

(** ** [main]: the batch fetch *)

(** [{anime_id: response for anime_id, response in zip(anime_ids, responses)
      if response is not None}] *)
Definition collect_step (d : pydict row) (p : Z * option anime) : pydict row :=
  match p.2 with
  | Some a => dict_set p.1 (RData a) d
  | None => d
  end.

Definition collect (pairs : list (Z * option anime)) : pydict row :=
  fold_left collect_step pairs [].

(** [asyncio.gather] returns the results in the order of the tasks. *)
Definition gather (cfg : settings) (tr : transport) (anime_ids : list Z)
  : list (option anime) :=
  map (response cfg tr) anime_ids.

Definition main (cfg : settings) (tr : transport) (anime_ids : list Z) : pydict row :=
  collect (combine anime_ids (gather cfg tr anime_ids)).

(** ** The module-level fetch of the primary and the secondary list *)

Record fetched := {
  datas : pydict row;
  secondary_datas : pydict row;
  failed_anime_ids : list Z
}.

Definition run_fetch (cfg : settings) (tr : transport)
    (anime_ids secondary_anime_ids : list Z) : fetched :=
  let datas := main cfg tr anime_ids in
  (* failed_anime_ids = []; failed_anime_ids.extend([... if anime_id not in datas]) *)
  let failed := [] ++ List.filter (fun id => negb (dict_mem id datas)) anime_ids in
  let secondary :=
    match secondary_anime_ids with
    | [] => []
    | _ => main cfg tr secondary_anime_ids
    end in
  {| datas := datas; secondary_datas := secondary; failed_anime_ids := failed |}.

(** ** [sorted(..., key=...)]

    Python's [sorted] computes the key of every element once, in order (an
    exception in a key aborts the call), and then sorts stably by [<] on
    the keys.  On keys that [<] orders totally the result of a stable sort
    is unique, so a stable insertion sort computes it. *)

Section PySorted.
Context {K A : Type} (ltb : K → K → bool).

Fixpoint insert_keyed (kx : K * A) (l : list (K * A)) : list (K * A) :=
  match l with
  | [] => [kx]
  | ky :: l' =>
      if ltb ky.1 kx.1 then ky :: insert_keyed kx l' else kx :: ky :: l'
  end.

Definition sort_keyed (l : list (K * A)) : list (K * A) :=
  fold_right insert_keyed [] l.

Definition with_key (key : A → option K) (x : A) : option (K * A) :=
  k ← key x; Some (k, x).

Definition sorted (key : A → option K) (l : list A) : option (list A) :=
  keyed ← mapM (with_key key) l;
  Some (map snd (sort_keyed keyed)).
End PySorted.

(** ** Sort keys *)

(** Numbers with [float('inf')] and its negation. *)
Inductive xnum := NegInf | Fin (q : Q) | PosInf.

Definition xneg (x : xnum) : xnum :=
  match x with NegInf => PosInf | Fin q => Fin (- q)%Q | PosInf => NegInf end.

Definition Qltb (p q : Q) : bool := negb (Qle_bool q p).

Definition xltb (x y : xnum) : bool :=
  match x, y with
  | NegInf, NegInf => false
  | NegInf, _ => true
  | Fin _, NegInf => false
  | Fin p, Fin q => Qltb p q
  | Fin _, PosInf => true
  | PosInf, _ => false
  end.

Definition xint (z : Z) : xnum := Fin (inject_Z z).

(** [<] on the pairs [(isinstance(x, str), number)]: the first components
    decide when they differ ([False < True]), the second ones otherwise. *)
Definition pair_ltb (a b : bool * xnum) : bool :=
  if Bool.eqb a.1 b.1 then xltb a.2 b.2 else negb a.1 && b.1.

(** [str.lower()] on ASCII text: the letters A to Z become a to z and every
    other character stays.  Text with characters from 128 on, where
    [str.lower()] changes more than these letters, is outside this
    definition. *)
Definition lower_ascii (c : ascii) : ascii :=
  let n := nat_of_ascii c in
  if (Nat.leb 65 n && Nat.leb n 90)%bool then ascii_of_nat (n + 32) else c.

Fixpoint lower (s : string) : string :=
  match s with
  | EmptyString => EmptyString
  | String c s' => String (lower_ascii c) (lower s')
  end.

(** [get_sortable_value(x, key)] for the two keys it is called with. *)
Definition get_sortable_value_mean (x : row) : xnum :=
  match x with
  | RErr _ => PosInf
  | RData a => match a_mean a with Some q => Fin q | None => PosInf end
  end.

Definition get_sortable_value_favorites (x : row) : xnum :=
  match x with
  | RErr _ => PosInf
  | RData a => match a_num_favorites a with Some z => xint z | None => PosInf end
  end.

(** [status_order.get(code, 4)] *)
Definition status_order (c : status_code) : Z :=
  match c with
  | FIN => 0 | FINq => 1 | AIR => 2 | PRE => 3 | NYA => 4 | ERR => 5
  | UNK => 4
  end.

(** The key [(isinstance(x, str), -calculate_variables(x)[i] if not
    isinstance(x, str) else 0)] of the columns E, F, G, H, J and K. *)
Definition key_derived (proj : derived → Q) (x : row) : option (bool * xnum) :=
  match x with
  | RErr _ => Some (true, xint 0)
  | RData a => d ← calculate_variables a; Some (false, Fin (- proj d)%Q)
  end.

Definition key_title (x : row) : option string :=
  match x with
  | RErr msg => Some msg
  | RData a => t ← a_title a; Some (lower t)
  end.

Definition key_score (x : row) : option (bool * xnum) :=
  match x with
  | RErr _ => Some (true, xint 0)
  | RData _ => Some (false, xneg (get_sortable_value_mean x))
  end.

Definition key_favorites (x : row) : option (bool * xnum) :=
  Some (isinstance_str x, xneg (get_sortable_value_favorites x)).

(** [post_counts] is a module-level name that exists only once
    [create_posts_sheet] has run; [None] is "not defined". *)
Definition key_posts (post_counts : option (gmap Z Z)) (x : row)
  : option (bool * xnum) :=
  match x with
  | RErr _ => Some (true, xint 0)
  | RData a =>
      pc ← post_counts; id ← a_id a;
      Some (false, xint (- default 0 (pc !! id)))
  end.

Definition key_drop_rate (x : row) : option (bool * xnum) :=
  match x with
  | RErr _ => Some (true, xint 0)
  | RData a =>
      d ← calculate_variables a;
      if 0 <? d_watch_drop d
      then Some (false, Fin (- (inject_Z (d_dropped d) / inject_Z (d_watch_drop d)))%Q)
      else Some (false, xint 0)
  end.

Definition key_status (x : row) : option (bool * xnum) :=
  match x with
  | RErr _ => Some (true, xint 5)
  | RData a => d ← calculate_variables a; Some (false, xint (status_order (d_status_code d)))
  end.

Definition key_id (x : row) : option (bool * xnum) :=
  match x with
  | RErr _ => Some (true, PosInf)
  | RData a => id ← a_id a; Some (false, xint id)
  end.

(** ** [sort_data] *)

Definition sort_data (post_counts : option (gmap Z Z)) (datas : pydict row)
    (sort_column : string) : option (list row) :=
  let values := dict_values datas in
  if String.eqb sort_column "A" then sorted String.ltb key_title values
  else if String.eqb sort_column "B" then sorted pair_ltb key_score values
  else if String.eqb sort_column "C" then sorted pair_ltb key_favorites values
  else if String.eqb sort_column "D" then sorted pair_ltb (key_posts post_counts) values
  else if String.eqb sort_column "E" then
    sorted pair_ltb (key_derived (fun d => inject_Z (d_watching d))) values
  else if String.eqb sort_column "F" then
    sorted pair_ltb (key_derived (fun d => inject_Z (d_completed d))) values
  else if String.eqb sort_column "G" then
    sorted pair_ltb (key_derived (fun d => inject_Z (d_watch_comp d))) values
  else if String.eqb sort_column "H" then
    sorted pair_ltb (key_derived (fun d => inject_Z (d_dropped d))) values
  else if String.eqb sort_column "I" then sorted pair_ltb key_drop_rate values
  else if String.eqb sort_column "J" then
    sorted pair_ltb (key_derived (fun d => inject_Z (d_ptw d))) values
  else if String.eqb sort_column "K" then
    sorted pair_ltb (key_derived d_active_ratio) values
  else if String.eqb sort_column "L" then sorted pair_ltb key_status values
  else if String.eqb sort_column "M" then sorted pair_ltb key_id values
  else Some values.

(** The columns whose key is a pair led by [isinstance(x, str)]. *)
Definition pair_columns : list string :=
  ["B"; "C"; "D"; "E"; "F"; "G"; "H"; "I"; "J"; "K"; "L"; "M"]%string.

(** A key function whose first component tells error texts from records. *)
Definition leads_with_isinstance (key : row → option (bool * xnum)) : Prop :=
  ∀ x k, key x = Some k → k.1 = isinstance_str x.

(** The count columns of the descending sort: the column letter, the test
    that a record lacks the count(s) the key is made of, and the component
    of [calculate_variables] the key negates. *)
Definition count_columns : list (string * ((anime → bool) * (derived → Z))) :=
  [("E"%string, (fun a => bool_decide (a_watching a = None), d_watching));
   ("F"%string, (fun a => bool_decide (a_completed a = None), d_completed));
   ("G"%string, (fun a => bool_decide (a_watching a = None) &&
                          bool_decide (a_completed a = None), d_watch_comp));
   ("H"%string, (fun a => bool_decide (a_dropped a = None), d_dropped));
   ("J"%string, (fun a => bool_decide (a_plan_to_watch a = None), d_ptw))].

(** ** [populate_sheet]: one sheet row per element of the sorted data *)

Inductive sheet_row :=
| ErrorRow (msg : string)     (* the message, in red, in every cell of the row *)
| DataRow (title : string) (score : option Q) (favorites posts : Z)
          (watching completed watch_comp dropped : Z) (drop_rate : Q)
          (ptw : Z) (ptw_ratio : Q) (status : status_code) (id : Z).

(** [data.get("mean") or ' '] : an absent or zero score is shown blank. *)
Definition score_cell (a : anime) : option Q :=
  match a_mean a with
  | Some q => if Qeq_bool q 0 then None else Some q
  | None => None
  end.

(** The fallback of the [except] branch around [calculate_variables]. *)
Definition err_values : derived :=
  {| d_status_code := ERR; d_watching := 0; d_completed := 0; d_dropped := 0;
     d_ptw := 0; d_watch_comp := 0; d_watch_drop := 0; d_active_ratio := 0 |}.

Definition derive (a : anime) : derived :=
  match calculate_variables a with Some d => d | None => err_values end.

(** [dropped / watch_drop if watch_drop > 0 else 0] *)
Definition drop_rate (d : derived) : Q :=
  if 0 <? d_watch_drop d
  then (inject_Z (d_dropped d) / inject_Z (d_watch_drop d))%Q
  else 0%Q.

Definition ptw_ratio (d : derived) : Q := d_active_ratio d.

Definition populate_row (x : row) : option sheet_row :=
  match x with
  | RErr msg => Some (ErrorRow msg)
  | RData a =>
      title ← a_title a;
      favorites ← a_num_favorites a;
      let d := derive a in
      id ← a_id a;
      Some (DataRow title (score_cell a) favorites 0
              (d_watching d) (d_completed d) (d_watch_comp d) (d_dropped d)
              (drop_rate d) (d_ptw d) (ptw_ratio d) (d_status_code d) id)
  end.

Definition populate_sheet (sorted_datas : list row) : option (list sheet_row) :=
  mapM populate_row sorted_datas.

(** The rows handed to [populate_sheet] for the main sheet:
    [sorted_datas = sort_data(datas, sort_column)], run before
    [post_counts] exists. *)
Definition final_rows (cfg : settings) (tr : transport) (anime_ids : list Z)
  : option (list row) :=
  sort_data None (main cfg tr anime_ids) (sort_column cfg).

(** ** The counting period and [create_posts_sheet] *)

(** Instants are points of the UTC time line, in microseconds. *)
Definition instant := Z.

Definition days (n : Z) : Z := n * 86400000000.
Definition weeks (n : Z) : Z := days (7 * n).

(** [current_period] is a number or the text ['n/a']. *)
Inductive period := PeriodNA | Period (n : Z).

(** [current_period == 2] *)
Definition period_is_2 (p : period) : bool :=
  match p with Period n => n =? 2 | PeriodNA => false end.

Definition get_week_and_period (date season_start : instant) : Z * period :=
  let delta_days := (date - season_start) / days 1 in
  let current_week := delta_days / 7 + 1 in
  let current_period :=
    if (13 <? current_week) || (current_week <? 1) then PeriodNA
    else if current_week =? 13 then Period 13
    else Period (Z.min ((current_week + 1) / 2 * 2) 12) in
  (current_week, current_period).

(** The module-level computation of the two boundaries; ['n/a' - 2] and
    [timedelta(weeks='n/a')] raise. *)
Definition current_period_start (p : period) (season_start : instant) : option instant :=
  if period_is_2 p then Some season_start
  else match p with
       | Period n => Some (season_start + weeks (n - 2))
       | PeriodNA => None
       end.

Definition current_period_end (p : period) (season_start : instant) : option instant :=
  match p with
  | Period n => Some (season_start + weeks n)
  | PeriodNA => None
  end.

(** One entry of [thread['details']]. *)
Record detail := { username : string; timestamp : instant }.

(** The test that guards [thread_posters.add(detail['username'])]. *)
Definition counted (p : period) (period_start period_end : instant) (t : instant) : bool :=
  if period_is_2 p then t <? period_end
  else (period_start <=? t) && (t <? period_end).

(** The loop over [thread['details']] that fills [thread_posters]. *)
Definition thread_posters (p : period) (period_start period_end : instant)
    (details : list detail) : gset string :=
  fold_left
    (fun posters d =>
       if counted p period_start period_end (timestamp d)
       then posters ∪ {[ username d ]}
       else posters)
    details ∅.

(** [total_posts]: the sum of [len(thread_posters)] over the threads. *)
Definition total_posts (p : period) (period_start period_end : instant)
    (threads : list (list detail)) : nat :=
  fold_left
    (fun total details => (total + size (thread_posters p period_start period_end details))%nat)
    threads 0%nat.

(** ** The task pool of [main]: [Semaphore(max_conc_requests)] and [gather]

    Every task runs [fetch_anime_data], whose whole body is inside
    [async with semaphore].  Between two suspension points a task runs
    alone, so an execution is an interleaving of the steps below.  The
    semaphore is its counter: acquiring needs a positive counter and
    decrements it, leaving the block increments it. *)

Inductive task :=
| Queued                        (* waiting at [async with semaphore] *)
| InFlight (attempt : nat)      (* inside the block, before attempt [attempt] *)
| Finished (r : option anime).  (* returned, semaphore released *)

Record pool := { permits : nat; tasks : list task }.

Definition is_in_flight (t : task) : bool :=
  match t with InFlight _ => true | _ => false end.

Definition in_flight (p : pool) : nat :=
  length (List.filter is_in_flight (tasks p)).

(** [Semaphore(max_conc_requests)] and one task per title.  (A negative
    value makes [Semaphore] raise before any task exists; it is read as no
    slot at all.) *)
Definition init_pool (cfg : settings) (anime_ids : list Z) : pool :=
  {| permits := Z.to_nat (max_conc_requests cfg); tasks := map (fun _ => Queued) anime_ids |}.

Inductive step (cfg : settings) (tr : transport) (anime_ids : list Z)
  : pool → pool → Prop :=
| step_acquire i n p :
    tasks p !! i = Some Queued →
    permits p = S n →
    step cfg tr anime_ids p
      {| permits := n; tasks := <[i := InFlight 0]> (tasks p) |}
| step_retry i id k p :
    tasks p !! i = Some (InFlight k) →
    anime_ids !! i = Some id →
    (k < attempts_of cfg)%nat →
    try_once (attempts_of cfg) k (tr id k) = Retry →
    step cfg tr anime_ids p
      {| permits := permits p; tasks := <[i := InFlight (S k)]> (tasks p) |}
| step_return i id k r p :
    tasks p !! i = Some (InFlight k) →
    anime_ids !! i = Some id →
    (k < attempts_of cfg)%nat →
    try_once (attempts_of cfg) k (tr id k) = Return r →
    step cfg tr anime_ids p
      {| permits := S (permits p); tasks := <[i := Finished r]> (tasks p) |}
| step_exhausted i k p :
    tasks p !! i = Some (InFlight k) →
    (attempts_of cfg <= k)%nat →
    step cfg tr anime_ids p
      {| permits := S (permits p); tasks := <[i := Finished None]> (tasks p) |}.

(** The states an execution of the batch can be in. *)
Definition reachable (cfg : settings) (tr : transport) (anime_ids : list Z)
    (p : pool) : Prop :=
  rtc (step cfg tr anime_ids) (init_pool cfg anime_ids) p.

(** What a task of the pool has computed so far, against the loop of
    [fetch_anime_data]. *)
Definition task_agrees (cfg : settings) (tr : transport) (id : Z) (t : task) : Prop :=
  match t with
  | Queued => True
  | InFlight k =>
      (k <= attempts_of cfg)%nat ∧
      fetch_loop (tr id) (attempts_of cfg) k (attempts_of cfg - k) = response cfg tr id
  | Finished r => r = response cfg tr id
  end.

(** The pool in which the tasks of [done] have returned and those of [rest]
    still wait, with [cap] free slots. *)
Definition pool_between (cfg : settings) (tr : transport) (cap : nat)
    (done rest : list Z) : pool :=
  {| permits := cap;
     tasks := map (fun id => Finished (response cfg tr id)) done ++
              map (fun _ => Queued) rest |}.

(** ** The noise floors as the specification words them *)

Definition spec_preairNoiseFloor (plan_to_watch : Z) : Z :=
  Qceiling (200 + inject_Z plan_to_watch / 250)%Q.

Definition spec_completedNoiseFloor (watching : Z) : Z :=
  Qceiling (100 + inject_Z watching / 30)%Q.


(** ** Sample inputs *)

(** A not-yet-aired title with 200000 plan-to-watch. *)
Definition sample_unaired (watching : Z) : anime :=
  {| a_id := Some 1; a_title := Some "Sample"%string; a_mean := None;
     a_num_favorites := Some 10; a_status := Some "not_yet_aired"%string;
     a_watching := Some (IntLike watching); a_completed := Some (IntLike 5);
     a_dropped := Some (IntLike 7); a_plan_to_watch := Some (IntLike 200000) |}.

(** A title whose record carries only the given status. *)
Definition sample_bare (status : option string) : anime :=
  {| a_id := Some 2; a_title := Some "Bare"%string; a_mean := None;
     a_num_favorites := Some 0; a_status := status;
     a_watching := None; a_completed := None;
     a_dropped := None; a_plan_to_watch := None |}.

(** A title on hiatus, a status outside the three the classifier knows. *)
Definition sample_hiatus : anime :=
  {| a_id := Some 3; a_title := Some "Hiatus"%string; a_mean := Some (7 # 1);
     a_num_favorites := Some 4; a_status := Some "on_hiatus"%string;
     a_watching := Some (IntLike 120); a_completed := Some (IntLike 30);
     a_dropped := Some (IntLike 50); a_plan_to_watch := Some (IntLike 400) |}.

(** A finished title with the given id, title, score and watching count. *)
Definition titled (id : Z) (title : string) (mean : option Q)
    (watching : option count_field) : anime :=
  {| a_id := Some id; a_title := Some title; a_mean := mean;
     a_num_favorites := Some 0; a_status := Some "finished_airing"%string;
     a_watching := watching; a_completed := Some (IntLike 10);
     a_dropped := Some (IntLike 1); a_plan_to_watch := Some (IntLike 100) |}.

(** The rows [{id:5}, {id:1}, "ERR-row", {id:3}] of the specification. *)
Definition rows_5_1_err_3 : pydict row :=
  [(5, RData (titled 5 "Epsilon" (Some (8 # 1)) (Some (IntLike 50))));
   (1, RData (titled 1 "Alpha" (Some (7 # 1)) (Some (IntLike 10))));
   (9, RErr "ERR-row");
   (3, RData (titled 3 "Gamma" (Some (6 # 1)) (Some (IntLike 30))))].

(** One title and one error message. *)
Definition rows_title_and_error : pydict row :=
  [(4, RData (titled 4 "Zeta" (Some (8 # 1)) (Some (IntLike 50))));
   (9, RErr "Error: no data")].

(** A scored title followed by a title without a score. *)
Definition rows_scored_then_unscored : pydict row :=
  [(1, RData (titled 1 "Alpha" (Some (8 # 1)) (Some (IntLike 10))));
   (2, RData (titled 2 "Beta" None (Some (IntLike 20))))].

(** A title without a watching count followed by one with watching 0. *)
Definition rows_unwatched_then_zero : pydict row :=
  [(1, RData (titled 1 "Alpha" (Some (8 # 1)) None));
   (2, RData (titled 2 "Beta" (Some (7 # 1)) (Some (IntLike 0))))].

(** A title with 25 watching after one without a watching count. *)
Definition rows_unwatched_then_watched : pydict row :=
  [(1, RData (titled 1 "Alpha" (Some (8 # 1)) None));
   (2, RData (titled 2 "Beta" (Some (7 # 1)) (Some (IntLike 25))))].

(** The settings the script ships with. *)
Definition default_settings : settings :=
  {| max_conc_requests := 9999; retry_limit := 3;
     sort_column := "M"; enable_posts := false |}.

(** A remote side on which title 2 does not exist (error 404) and every
    other title [id] is served at once. *)
Definition transport_without_2 : transport :=
  fun id _ =>
    if id =? 2 then HttpError 404
    else Body (Some (titled id "Served" (Some (7 # 1)) (Some (IntLike 10)))).

(** Two posts of one user and one post of another, all inside the window
    from 100 to 200. *)
Definition thread_two_users : list detail :=
  [{| username := "ann"; timestamp := 110 |};
   {| username := "bob"; timestamp := 120 |};
   {| username := "ann"; timestamp := 150 |}].

(** Cap 2 and ten pending fetches. *)
Definition settings_cap_2 : settings :=
  {| max_conc_requests := 2; retry_limit := 3;
     sort_column := "M"; enable_posts := false |}.

Definition ten_ids : list Z := [1; 2; 3; 4; 5; 6; 7; 8; 9; 10].

(** The pool after two of the ten tasks have entered the block. *)
Definition pool_two_in_flight : pool :=
  {| permits := 0;
     tasks := [InFlight 0; InFlight 0; Queued; Queued; Queued;
               Queued; Queued; Queued; Queued; Queued] |}.

(** * Further parts of the script *)

(** ** [log_print] and the error counter *)

(** The levels of [logging], with the level VERBOSE the script adds. *)
Definition DEBUG : Z := 10.
Definition VERBOSE : Z := 15.
Definition INFO : Z := 20.
Definition WARNING : Z := 30.
Definition ERROR : Z := 40.

(** Whether [log_print(message, level)] prints at the given verbosity. *)
Definition printed (verbosity level : Z) : bool :=
  if verbosity =? 0 then false
  else if (verbosity =? 1) && (INFO <=? level) then true
  else if (verbosity =? 2) && (VERBOSE <=? level) then true
  else if 3 <=? verbosity then true
  else false.

(** [log_print]: the new value of the global [error_count] and whether the
    message was printed. *)
Definition log_print (verbosity : Z) (error_count : nat) (level : Z) : nat * bool :=
  let error_count := if level =? ERROR then S error_count else error_count in
  (error_count, printed verbosity level).

(** ** [validate_anime_ids] *)

(** [str(id)] for an integer. *)
Definition py_str (id : Z) : string := NilZero.string_of_int (Z.to_int id).

Definition is_digit (c : ascii) : bool :=
  let n := nat_of_ascii c in Nat.leb 48 n && Nat.leb n 57.

(** [s.isdigit()] on ASCII text: nonempty and digits only. *)
Definition isdigit (s : string) : bool :=
  match s with
  | EmptyString => false
  | _ => forallb is_digit (list_ascii_of_string s)
  end.

(** [all(str(id).isdigit() for id in ids) and len(ids) > 0] *)
Definition validate_anime_ids (ids : list Z) : bool :=
  forallb (fun id => isdigit (py_str id)) ids && Nat.ltb 0 (length ids).

(** ** [fetch_anime_data] with what it logs and how long it sleeps *)

(** The outcomes the loop answers with a further attempt, if one is left. *)
Definition retryable (o : outcome) : bool :=
  match o with
  | Body _ => false
  | HttpError s => negb (s =? 404) && negb (s =? 504)
  | ClientErr | OtherExc => true
  end.

(** Whether the handler of this attempt calls [log_print(..., ERROR)]. *)
Definition logs_error (attempts attempt : nat) (o : outcome) : bool :=
  match o with
  | Body _ => false
  | HttpError s => (s =? 404) || (s =? 504) || Nat.eqb attempt (attempts - 1)
  | ClientErr | OtherExc => Nat.eqb attempt (attempts - 1)
  end.

(** Whether the handler of this attempt reaches [asyncio.sleep(sleep_time)]. *)
Definition sleeps_after (cfg : settings) (attempts attempt : nat) (o : outcome) : bool :=
  match try_once attempts attempt o with
  | Return _ => false
  | Retry =>
      match o with
      | HttpError _ => true
      | _ => 0 <? retry_limit cfg
      end
  end.

(** What one call leaves behind besides its result. *)
Record fetch_log := {
  requests : nat;        (* calls of [session.get] *)
  errors_logged : nat;   (* calls of [log_print] at level ERROR *)
  sleeps : nat           (* calls of [asyncio.sleep(sleep_time)] *)
}.

Definition b2n (b : bool) : nat := if b then 1%nat else 0%nat.

Fixpoint fetch_loop_log (cfg : settings) (get : nat → outcome)
    (attempts attempt remaining : nat) : option anime * fetch_log :=
  match remaining with
  | O => (None, {| requests := 0; errors_logged := 0; sleeps := 0 |})
  | S r =>
      let o := get attempt in
      match try_once attempts attempt o with
      | Return x =>
          (x, {| requests := 1;
                 errors_logged := b2n (logs_error attempts attempt o);
                 sleeps := 0 |})
      | Retry =>
          let '(x, l) := fetch_loop_log cfg get attempts (S attempt) r in
          (x, {| requests := S (requests l);
                 errors_logged := (b2n (logs_error attempts attempt o) + errors_logged l)%nat;
                 sleeps := (b2n (sleeps_after cfg attempts attempt o) + sleeps l)%nat |})
      end
  end.

Definition fetch_anime_data_log (cfg : settings) (get : nat → outcome)
  : option anime * fetch_log :=
  fetch_loop_log cfg get (attempts_of cfg) 0 (attempts_of cfg).

(** ** Rows the renderer can write *)

(** The keys [populate_sheet] reads with [data[...]]: a record without one
    of them makes it raise [KeyError]. *)
Definition renderable (x : row) : Prop :=
  match x with
  | RErr _ => True
  | RData a => is_Some (a_title a) ∧ is_Some (a_num_favorites a) ∧ is_Some (a_id a)
  end.

(** ** Notions used to state what the sort stage does *)

(** The thirteen column letters [sort_data] knows. *)
Definition sort_columns : list string := ("A" :: pair_columns)%string.

(** Two keys neither of which is smaller than the other. *)
Definition tie {K} (ltb : K → K → bool) (k k' : K) : bool :=
  negb (ltb k k') && negb (ltb k' k).

(** The component of [calculate_variables] a count column sorts by. *)
Definition column_value (proj : derived → Z) (x : row) : option Z :=
  match x with
  | RData a => proj <$> calculate_variables a
  | RErr _ => None
  end.


Definition row_id (x : row) : option Z :=
  match x with RData a => a_id a | RErr _ => None end.

Definition row_mean (x : row) : option Q :=
  match x with RData a => a_mean a | RErr _ => None end.

Definition is_record (x : row) : bool := negb (isinstance_str x).

(** ** Seasons: [get_season_start] and [get_current_season_and_start] *)

Definition hours (n : Z) : Z := n * 3600000000.

(** [d.weekday()]: Monday is 0; the first day of 1970 was a Thursday. *)
Definition weekday (t : instant) : Z := (t / days 1 + 3) mod 7.

(** What the script takes from the calendar of [datetime]: the year of an
    instant, and the instant [datetime(year, 1, 4, tzinfo=utc)]. *)
Record calendar := {
  year_of : instant → Z;
  jan4 : Z → instant
}.

Definition season_week_starts : list (string * Z) :=
  [("winter", 0); ("spring", 13); ("summer", 26); ("fall", 39)]%string.

(** The Monday of the week that holds 4 January. *)
Definition iso_week_start (cal : calendar) (year : Z) : instant :=
  jan4 cal year - days (weekday (jan4 cal year)).

(** The override date is given already parsed; an empty or absent
    setting is [None]. *)
Definition get_season_start (cal : calendar) (year : Z)
    (season_start_override : option instant) (season_override : option string)
  : list (string * instant) :=
  match season_start_override, season_override with
  | Some override_date, Some name => [(name, override_date + hours 2)]
  | _, _ =>
      map (fun sw : string * Z => (sw.1, iso_week_start cal year + weeks sw.2))
        season_week_starts
  end.

(** [season_starts[name]]: [None] is [KeyError]. *)
Fixpoint season_lookup (name : string) (l : list (string * instant)) : option instant :=
  match l with
  | [] => None
  | (n, t) :: l' => if String.eqb n name then Some t else season_lookup name l'
  end.

Definition get_current_season_and_start (cal : calendar) (now : instant)
    (season_start_override : option instant) (season_override : option string)
  : option (string * instant) :=
  let year := year_of cal now in
  let season_starts := get_season_start cal year season_start_override season_override in
  match List.find (fun ss : string * instant =>
                     (ss.2 <=? now) && (now <? ss.2 + weeks 13)) season_starts with
  | Some ss => Some ss
  | None =>
      start ← season_lookup "winter"
                (get_season_start cal (year + 1) season_start_override season_override);
      Some ("winter"%string, start)
  end.

(** The module-level statements from [current_season, season_start = ...]
    to [current_period_end = ...]: the two boundaries of the counting
    period, or [None] when one of the statements raises. *)
Definition script_period_bounds (cal : calendar) (now : instant)
    (season_start_override : option instant) (season_override : option string)
  : option (instant * instant) :=
  cs ← get_current_season_and_start cal now season_start_override season_override;
  let season_start := cs.2 in
  let current_period := (get_week_and_period now season_start).2 in
  period_start ← current_period_start current_period season_start;
  period_end ← current_period_end current_period season_start;
  Some (period_start, period_end).

(** ** The forum requests: [fetch_page] and [fetch_last_post] *)

(** What one [session.get] of [fetch_page] can end in. *)
Inductive page_outcome (J : Type) :=
| PageOk (j : option J)   (* status 200 and a body that decodes; JSON null is [None] *)
| PageForbidden           (* status 403: [sleep(1)] and [continue] *)
| PageFailed.             (* any other status, a body that does not decode, an exception *)
Arguments PageOk {J} j.
Arguments PageForbidden {J}.
Arguments PageFailed {J}.

Fixpoint fetch_page_loop {J} (get : nat → page_outcome J) (last attempt remaining : nat)
  : option J :=
  match remaining with
  | O => None
  | S r =>
      match get attempt with
      | PageOk j => j
      | PageForbidden => fetch_page_loop get last (S attempt) r
      | PageFailed =>
          if Nat.eqb attempt last then None
          else fetch_page_loop get last (S attempt) r
      end
  end.

(** [range(max(1, retry_limit))], last attempt [max(0, retry_limit - 1)]. *)
Definition fetch_page {J} (cfg : settings) (get : nat → page_outcome J) : option J :=
  fetch_page_loop get (Z.to_nat (Z.max 0 (retry_limit cfg - 1))) 0 (attempts_of cfg).

(** What one [session.get] of [fetch_last_post] can end in. *)
Inductive last_post_outcome :=
| LastAnswer (d : option detail)  (* a status other than 200 or no post in the page
                                     is [None]: returned at once *)
| LastExc.                        (* an exception *)

Fixpoint fetch_last_post_loop (get : nat → last_post_outcome)
    (last : Z) (attempt remaining : nat) : option detail :=
  match remaining with
  | O => None
  | S r =>
      match get attempt with
      | LastAnswer d => d
      | LastExc =>
          if Z.of_nat attempt =? last then None
          else fetch_last_post_loop get last (S attempt) r
      end
  end.

(** [range(retry_limit)], last attempt [retry_limit - 1]. *)
Definition fetch_last_post (cfg : settings) (get : nat → last_post_outcome)
  : option detail :=
  fetch_last_post_loop get (retry_limit cfg - 1) 0 (Z.to_nat (retry_limit cfg)).

(** ** [fetch_thread_details]: the paged feed of a thread *)

(** A post of the feed; a field that is absent or empty is [None]. *)
Record post := { created_at : option instant; created_by : option string }.

(** A page of the feed: its posts and whether [paging.next] is set. *)
Record topic_page := { posts : list post; has_next : bool }.

(** The posts that have both an author and a date. *)
Definition complete_posts (pg : topic_page) : list detail :=
  omap (fun p => match created_at p, created_by p with
                 | Some t, Some u => Some {| username := u; timestamp := t |}
                 | _, _ => None
                 end) (posts pg).

(** The [while True] loop; [feed k] is what [fetch_page] returns for the
    page at offset [k * batch_size].  [None] as result: the fuel ran out
    before the loop ended. *)
Fixpoint fetch_thread_details_from (feed : nat → option topic_page)
    (fuel page : nat) (thread_details : list detail) : option (list detail) :=
  match fuel with
  | O => None
  | S f =>
      match feed page with
      | None => Some thread_details
      | Some pg =>
          let thread_details := thread_details ++ complete_posts pg in
          if has_next pg
          then fetch_thread_details_from feed f (S page) thread_details
          else Some thread_details
      end
  end.

Definition fetch_thread_details (feed : nat → option topic_page) (fuel : nat)
  : option (list detail) :=
  fetch_thread_details_from feed fuel 0 [].

(** ** [fetch_forum_data] and the post counts of [create_posts_sheet] *)


(** [thread['details'] = details], then [.append(last_post)] if there is one. *)
Definition merge_last_post (details : list detail) (last_post : option detail)
  : list detail :=
  match last_post with Some d => details ++ [d] | None => details end.

(** [set(detail['username'] for detail in thread['details'])] *)
Definition unique_posters (details : list detail) : gset string :=
  list_to_set (map username details).






(** The breakdown [user_posts] of one thread, in order of first post:
    per user the number of posts and the date of the first one in the list. *)
Fixpoint bump (u : string) (t : instant) (l : list (string * (nat * instant)))
  : list (string * (nat * instant)) :=
  match l with
  | [] => [(u, (1%nat, t))]
  | (u', (c, f)) :: l' =>
      if String.eqb u' u then (u', (S c, f)) :: l' else (u', (c, f)) :: bump u t l'
  end.

Definition user_posts (details : list detail) : list (string * (nat * instant)) :=
  fold_left (fun acc d => bump (username d) (timestamp d) acc) details [].

Fixpoint user_lookup (u : string) (l : list (string * (nat * instant)))
  : option (nat * instant) :=
  match l with
  | [] => None
  | (u', v) :: l' => if String.eqb u' u then Some v else user_lookup u l'
  end.

(** The details of page [k] of a feed, none if the page was not fetched. *)
Definition page_details (feed : nat → option topic_page) (k : nat) : list detail :=
  match feed k with Some pg => complete_posts pg | None => [] end.

(** A feed of two pages; the second post of the first page has no author. *)
Definition feed_two_pages : nat → option topic_page :=
  fun k =>
    match k with
    | 0%nat => Some {| posts := [{| created_at := Some 110; created_by := Some "ann"%string |};
                                 {| created_at := Some 120; created_by := None |}];
                       has_next := true |}
    | 1%nat => Some {| posts := [{| created_at := Some 150; created_by := Some "bob"%string |}];
                       has_next := false |}
    | _ => None
    end.



(** ** The two quotients, with the division that can raise *)

(** [a / b] on two integers: true division, [ZeroDivisionError] ([None])
    when [b] is 0. *)
Definition py_truediv (a b : Z) : option Q :=
  if b =? 0 then None else Some (inject_Z a / inject_Z b)%Q.

(** [watch_comp / ptw if ptw > 0 else 0.00], the last line of
    [calculate_variables]. *)
Definition active_ratio_expr (watch_comp ptw : Z) : option Q :=
  if 0 <? ptw then py_truediv watch_comp ptw else Some 0%Q.

(** [dropped / watch_drop if watch_drop > 0 else 0], the drop-rate cell of
    [populate_sheet]. *)
Definition drop_rate_expr (dropped watch_drop : Z) : option Q :=
  if 0 <? watch_drop then py_truediv dropped watch_drop else Some 0%Q.

(** ** ASCII text *)

(** [str.isascii()]: every character is below 128.  On such text
    [str.lower()] changes the letters A to Z and nothing else, which is
    what [lower] does. *)
Definition isascii (s : string) : bool :=
  forallb (fun c => Nat.ltb (nat_of_ascii c) 128) (list_ascii_of_string s).

(** ** Further sample inputs *)

(** A not-yet-aired title with a single plan-to-watch user. *)
Definition sample_unaired_ptw_1 (watching : Z) : anime :=
  {| a_id := Some 1; a_title := Some "Sample"%string; a_mean := None;
     a_num_favorites := Some 10; a_status := Some "not_yet_aired"%string;
     a_watching := Some (IntLike watching); a_completed := Some (IntLike 5);
     a_dropped := Some (IntLike 7); a_plan_to_watch := Some (IntLike 1) |}.

(** The shipped settings with the score column as the sort key. *)
Definition settings_by_score : settings :=
  {| max_conc_requests := 9999; retry_limit := 3;
     sort_column := "B"; enable_posts := false |}.

(** A remote side that serves title 1 with the score 8 and every other
    title without a score (the key [mean] is absent from its record). *)
Definition transport_unscored : transport :=
  fun id _ =>
    if id =? 1
    then Body (Some (titled 1 "Alpha" (Some (8 # 1)) (Some (IntLike 10))))
    else Body (Some (titled id "Beta" None (Some (IntLike 20)))).

(* PROPERTIES *)

(** * Properties *)

(** ** The classifier *)

Lemma int_or_zero_ok f : count_ok f → int_or_zero f = Some (read_count f).
Proof.
  unfold count_ok. destruct f as [[z|]|]; simpl; intros H; congruence.
Qed.

(** On a well-formed record [calculate_variables] does not raise: it is
    [classify] on the four counts as read. *)
Lemma calculate_variables_wf data :
  well_formed data →
  calculate_variables data =
    Some (classify (raw_status data)
            (read_count (a_watching data)) (read_count (a_completed data))
            (read_count (a_dropped data)) (read_count (a_plan_to_watch data))).
Proof.
  intros (Hw & Hc & Hd & Hp). unfold calculate_variables.
  rewrite (int_or_zero_ok _ Hw), (int_or_zero_ok _ Hc),
          (int_or_zero_ok _ Hd), (int_or_zero_ok _ Hp).
  reflexivity.
Qed.

Ltac classify_cases :=
  unfold classify;
  repeat match goal with
  | |- context [String.eqb ?s ?t] =>
      let E := fresh "E" in destruct (String.eqb_spec s t) as [E|E]
  | |- context [?a <? ?b] =>
      lazymatch a with
      | 0 => fail
      | _ => let E := fresh "E" in destruct (Z.ltb_spec a b) as [E|E]
      end
  end.

Lemma classify_fields status w c dr p :
  d_ptw (classify status w c dr p) = p ∧
  d_watch_comp (classify status w c dr p) =
    d_watching (classify status w c dr p) + d_completed (classify status w c dr p) ∧
  d_watch_drop (classify status w c dr p) =
    d_watch_comp (classify status w c dr p) + d_dropped (classify status w c dr p) ∧
  d_active_ratio (classify status w c dr p) =
    (if 0 <? p
     then (inject_Z (d_watch_comp (classify status w c dr p)) / inject_Z p)%Q
     else 0%Q).
Proof.
  classify_cases; simpl; auto.
Qed.

(** The decision table relative to the two floors as the script computes
    them.  On every well-formed record the classifier returns, first match
    winning: not yet aired below [preair_noise_floor] is NYA with watching,
    completed and dropped zeroed; not yet aired at or above it is PRE with
    only completed zeroed; finished airing is FIN; currently airing below
    [comp_noise_floor] is AIR with completed zeroed; currently airing at or
    above it is FIN? with completed kept; anything else is UNK.  The status
    is always one of the six codes. *)
Lemma calculate_variables_decision_table (data : anime) :
  well_formed data →
  let w := read_count (a_watching data) in
  let c := read_count (a_completed data) in
  let dr := read_count (a_dropped data) in
  let p := read_count (a_plan_to_watch data) in
  ∃ d, calculate_variables data = Some d ∧
    d_ptw d = p ∧
    (raw_status data = "not_yet_aired"%string → w < preair_noise_floor p →
       d_status_code d = NYA ∧ d_watching d = 0 ∧ d_completed d = 0 ∧ d_dropped d = 0) ∧
    (raw_status data = "not_yet_aired"%string → preair_noise_floor p <= w →
       d_status_code d = PRE ∧ d_watching d = w ∧ d_completed d = 0 ∧ d_dropped d = dr) ∧
    (raw_status data = "finished_airing"%string →
       d_status_code d = FIN ∧ d_watching d = w ∧ d_completed d = c ∧ d_dropped d = dr) ∧
    (raw_status data = "currently_airing"%string → c < comp_noise_floor w →
       d_status_code d = AIR ∧ d_watching d = w ∧ d_completed d = 0 ∧ d_dropped d = dr) ∧
    (raw_status data = "currently_airing"%string → comp_noise_floor w <= c →
       d_status_code d = FINq ∧ d_watching d = w ∧ d_completed d = c ∧ d_dropped d = dr) ∧
    (raw_status data ≠ "not_yet_aired"%string →
     raw_status data ≠ "finished_airing"%string →
     raw_status data ≠ "currently_airing"%string →
       d_status_code d = UNK) ∧
    In (d_status_code d) [NYA; PRE; AIR; FINq; FIN; UNK].
Proof.
  intros Hwf w c dr p.
  eexists. split; [apply (calculate_variables_wf _ Hwf)|].
  fold w c dr p. generalize (raw_status data) as st. intros st.
  split; [apply classify_fields|].
  classify_cases; simpl; subst;
    repeat split; intros; try congruence; try lia; auto 10.
Qed.

(** The boundary of the specification: with 200000 plan-to-watch the
    pre-air floor is 1000; 999 watching is NYA with the counts zeroed, 1000
    watching is PRE with watching kept and completed zeroed. *)
Lemma calculate_variables_decision_table_witness :
  well_formed (sample_unaired 999) ∧ well_formed (sample_unaired 1000) ∧
  (∃ d, calculate_variables (sample_unaired 999) = Some d ∧
        d_status_code d = NYA ∧ d_watching d = 0 ∧ d_completed d = 0 ∧
        d_dropped d = 0) ∧
  (∃ d, calculate_variables (sample_unaired 1000) = Some d ∧
        d_status_code d = PRE ∧ d_watching d = 1000 ∧ d_completed d = 0 ∧
        d_dropped d = 7).
Proof.
  assert (∀ w, well_formed (sample_unaired w)) as Hwf
    by (intros w; repeat split; discriminate).
  split; [apply Hwf|]. split; [apply Hwf|]. split.
  - destruct (calculate_variables_decision_table (sample_unaired 999) (Hwf 999))
      as (d & Hd & _ & Hnya & _).
    exists d. split; [exact Hd|].
    apply Hnya; [reflexivity | vm_compute; reflexivity].
  - destruct (calculate_variables_decision_table (sample_unaired 1000) (Hwf 1000))
      as (d & Hd & _ & _ & Hpre & _).
    exists d. split; [exact Hd|].
    apply Hpre; [reflexivity | vm_compute; discriminate].
Defined.

(** C10.  A well-formed record whose raw status is none of the three known
    ones (an empty or absent status included) is classified UNK; watching,
    completed, dropped and plan-to-watch stay as read, and the sums and the
    two ratios are computed from those unmodified values. *)
Theorem calculate_variables_unknown_status (data : anime) :
  well_formed data →
  raw_status data ≠ "not_yet_aired"%string →
  raw_status data ≠ "finished_airing"%string →
  raw_status data ≠ "currently_airing"%string →
  let w := read_count (a_watching data) in
  let c := read_count (a_completed data) in
  let dr := read_count (a_dropped data) in
  let p := read_count (a_plan_to_watch data) in
  ∃ d, calculate_variables data = Some d ∧
    d_status_code d = UNK ∧
    d_watching d = w ∧ d_completed d = c ∧ d_dropped d = dr ∧ d_ptw d = p ∧
    d_watch_comp d = w + c ∧
    d_watch_drop d = w + c + dr ∧
    ptw_ratio d = (if 0 <? p then (inject_Z (w + c) / inject_Z p)%Q else 0%Q) ∧
    drop_rate d =
      (if 0 <? w + c + dr then (inject_Z dr / inject_Z (w + c + dr))%Q else 0%Q).
Proof.
  intros Hwf H1 H2 H3 w c dr p.
  eexists. split; [apply (calculate_variables_wf _ Hwf)|].
  fold w c dr p. unfold classify.
  destruct (String.eqb_spec (raw_status data) "not_yet_aired"); [contradiction|].
  destruct (String.eqb_spec (raw_status data) "finished_airing"); [contradiction|].
  destruct (String.eqb_spec (raw_status data) "currently_airing"); [contradiction|].
  unfold drop_rate, ptw_ratio. simpl. repeat split; reflexivity.
Qed.

Lemma sample_hiatus_wf : well_formed sample_hiatus.
Proof. repeat split; discriminate. Qed.

Lemma sample_bare_wf s : well_formed (sample_bare s).
Proof. repeat split; discriminate. Qed.

Lemma calculate_variables_unknown_status_witness :
  well_formed sample_hiatus ∧ well_formed (sample_bare None) ∧
  (∃ d, calculate_variables sample_hiatus = Some d ∧ d_status_code d = UNK ∧
        d_watching d = 120 ∧ d_completed d = 30 ∧ d_dropped d = 50 ∧ d_ptw d = 400) ∧
  (∃ d, calculate_variables (sample_bare None) = Some d ∧ d_status_code d = UNK).
Proof.
  split; [apply sample_hiatus_wf|]. split; [apply sample_bare_wf|].
  split.
  - destruct (calculate_variables_unknown_status sample_hiatus sample_hiatus_wf)
      as (d & Hd & Hu & Hw & Hc & Hdr & Hp & _); try (vm_compute; discriminate).
    exists d. repeat split; assumption.
  - destruct (calculate_variables_unknown_status (sample_bare None)
                (sample_bare_wf None))
      as (d & Hd & Hu & _); try (vm_compute; discriminate).
    exists d. split; assumption.
Defined.

(** ** The two ratios *)

Lemma Qdiv_nonneg (a b : Z) : 0 <= a → 0 < b → (0 <= inject_Z a / inject_Z b)%Q.
Proof.
  intros Ha Hb. unfold Qdiv. apply Qmult_le_0_compat.
  - unfold Qle. simpl. lia.
  - apply Qinv_le_0_compat. unfold Qle. simpl. lia.
Qed.

Lemma classify_nonneg status w c dr p :
  0 <= w → 0 <= c → 0 <= dr →
  0 <= d_watching (classify status w c dr p) ∧
  0 <= d_completed (classify status w c dr p) ∧
  0 <= d_dropped (classify status w c dr p).
Proof.
  intros Hw Hc Hd. classify_cases; simpl; lia.
Qed.

(** ** The noise floors *)

Lemma Qceiling_plus_div (k w n : Z) (Hn : 0 < n) :
  Qceiling (inject_Z k + inject_Z w / inject_Z n)%Q = k + (w + n - 1) / n.
Proof.
  destruct n as [|n|n]; try lia.
  unfold Qceiling, Qfloor, Qdiv, Qinv, Qmult, Qplus, Qopp, inject_Z. simpl.
  rewrite Pos2Z.inj_mul.
  replace (- (k * (1 * Z.pos n) + w * 1 * 1)) with (- (k * Z.pos n + w)) by lia.
  replace (1 * Z.pos n) with (Z.pos n) by lia.
  Z.to_euclidean_division_equations. nia.
Qed.

Lemma comp_noise_floor_int (watching : Z) :
  comp_noise_floor watching = 100 + (watching + 29) / 30.
Proof.
  unfold comp_noise_floor.
  change 100%Q with (inject_Z 100). change 30%Q with (inject_Z 30).
  rewrite Qceiling_plus_div by lia.
  replace (watching + 30 - 1) with (watching + 29) by lia. reflexivity.
Qed.

Lemma spec_preairNoiseFloor_int (ptw : Z) :
  spec_preairNoiseFloor ptw = 200 + (ptw + 249) / 250.
Proof.
  unfold spec_preairNoiseFloor.
  change 200%Q with (inject_Z 200). change 250%Q with (inject_Z 250).
  rewrite Qceiling_plus_div by lia.
  replace (ptw + 250 - 1) with (ptw + 249) by lia. reflexivity.
Qed.

(** The pre-air floor of the script against the formula of the
    specification: equal on the multiples of 250, one less elsewhere. *)
Lemma preair_noise_floor_vs_spec (ptw : Z) :
  (ptw mod 250 = 0 → preair_noise_floor ptw = spec_preairNoiseFloor ptw) ∧
  (ptw mod 250 ≠ 0 → preair_noise_floor ptw = spec_preairNoiseFloor ptw - 1).
Proof.
  rewrite spec_preairNoiseFloor_int. unfold preair_noise_floor.
  split; intros H; Z.to_euclidean_division_equations; lia.
Qed.

(** C3.  The pre-air floor is to be [ceil(200 + plan_to_watch / 250)] under
    exact division.  The script writes [math.ceil(200 + ptw // 250)], with
    the floor division [//] where the completed floor two lines below has
    [/]: with one plan-to-watch user its floor is 200, the formula gives
    201, and a not-yet-aired title with 200 watching is classified PRE
    where the formula makes it NYA. *)
Theorem preair_noise_floor_differs_at_1 :
  preair_noise_floor 1 = 200 ∧ spec_preairNoiseFloor 1 = 201 ∧
  (∃ d, calculate_variables
          {| a_id := Some 1; a_title := Some "T"%string; a_mean := None;
             a_num_favorites := Some 0; a_status := Some "not_yet_aired"%string;
             a_watching := Some (IntLike 200); a_completed := None;
             a_dropped := None; a_plan_to_watch := Some (IntLike 1) |} = Some d ∧
        d_status_code d = PRE).
Proof.
  split; [reflexivity|]. split; [reflexivity|].
  eexists. split; [vm_compute; reflexivity | reflexivity].
Qed.

(** Where the two floors stand.  The completed floor is
    [ceil(100 + watching / 30)] under exact division, in integers
    [100 + (watching + 29) div 30].  The pre-air floor of the script is
    [200 + floor(plan_to_watch / 250)]: it agrees with
    [ceil(200 + plan_to_watch / 250)] exactly on the multiples of 250; at
    200000 both are 1000. *)
Lemma noise_floors (plan_to_watch watching : Z) :
  comp_noise_floor watching = 100 + (watching + 29) / 30 ∧
  preair_noise_floor plan_to_watch =
    Qfloor (200 + inject_Z plan_to_watch / 250)%Q ∧
  (preair_noise_floor plan_to_watch = spec_preairNoiseFloor plan_to_watch
     ↔ plan_to_watch mod 250 = 0) ∧
  preair_noise_floor 200000 = 1000 ∧ spec_preairNoiseFloor 200000 = 1000.
Proof.
  split; [apply comp_noise_floor_int|].
  split.
  - unfold preair_noise_floor, Qfloor, Qdiv, Qinv, Qmult, Qplus, inject_Z. simpl.
    Z.to_euclidean_division_equations. lia.
  - split; [|split; reflexivity].
    destruct (preair_noise_floor_vs_spec plan_to_watch) as [Heq Hne].
    split; [|exact Heq].
    intros E. destruct (Z.eq_dec (plan_to_watch mod 250) 0) as [|Hn]; [assumption|].
    specialize (Hne Hn). lia.
Qed.

(** ** The two ratios on the counts of the record *)

(** The counts the classifier keeps, written out from its branches:
    watching and dropped are zeroed for a not-yet-aired title below the
    pre-air floor, completed is kept for a finished title, for an airing one
    at or above the completed floor and for an unknown status. *)
Lemma classify_counts status w c dr p :
  let nya := String.eqb status "not_yet_aired" && (w <? 200 + p / 250) in
  let keeps :=
    String.eqb status "finished_airing" ||
    String.eqb status "currently_airing" && (100 + (w + 29) / 30 <=? c) ||
    negb (String.eqb status "not_yet_aired" ||
          String.eqb status "finished_airing" ||
          String.eqb status "currently_airing") in
  d_watching (classify status w c dr p) = (if nya then 0 else w) ∧
  d_completed (classify status w c dr p) = (if keeps then c else 0) ∧
  d_dropped (classify status w c dr p) = (if nya then 0 else dr).
Proof.
  unfold classify, preair_noise_floor.
  rewrite comp_noise_floor_int, (Z.leb_antisym c).
  destruct (String.eqb_spec status "not_yet_aired") as [->|N1].
  - change (String.eqb "not_yet_aired" "finished_airing") with false.
    change (String.eqb "not_yet_aired" "currently_airing") with false.
    destruct (w <? 200 + p / 250); repeat split; reflexivity.
  - destruct (String.eqb_spec status "finished_airing") as [->|N2].
    + repeat split; reflexivity.
    + destruct (String.eqb_spec status "currently_airing") as [->|N3].
      * destruct (c <? 100 + (w + 29) / 30); repeat split; reflexivity.
      * repeat split; reflexivity.
Qed.

(** With the guard in front, neither quotient can raise. *)
Lemma active_ratio_expr_Some watch_comp ptw :
  active_ratio_expr watch_comp ptw =
    Some (if 0 <? ptw then (inject_Z watch_comp / inject_Z ptw)%Q else 0%Q).
Proof.
  unfold active_ratio_expr, py_truediv.
  destruct (Z.ltb_spec 0 ptw); [|reflexivity].
  destruct (Z.eqb_spec ptw 0); [lia | reflexivity].
Qed.

Lemma drop_rate_expr_Some dropped watch_drop :
  drop_rate_expr dropped watch_drop =
    Some (if 0 <? watch_drop
          then (inject_Z dropped / inject_Z watch_drop)%Q else 0%Q).
Proof.
  unfold drop_rate_expr, py_truediv.
  destruct (Z.ltb_spec 0 watch_drop); [|reflexivity].
  destruct (Z.eqb_spec watch_drop 0); [lia | reflexivity].
Qed.

(** Without the guard the division raises at a zero denominator. *)
Lemma py_truediv_zero a : py_truediv a 0 = None.
Proof. reflexivity. Qed.

(** C7.  On a record whose present counts convert, the classifier returns
    a row whose watching, completed and dropped are the counts of the
    record kept or zeroed as its status has it, and whose plan-to-watch is
    the record's.  Evaluated on these counts with the division that
    raises at 0, [dropped / watch_drop if watch_drop > 0 else 0] and
    [watch_comp / ptw if ptw > 0 else 0.00] return: their values are the
    drop rate and the plan-to-watch ratio of the row, each exactly 0 when
    its denominator is 0 and the quotient
    [dropped / (watching + completed + dropped)], respectively
    [(watching + completed) / plan_to_watch], when it is positive.  When
    the counts of the record are nonnegative, both are nonnegative. *)
Theorem ratios_nonneg_and_zero_safe (data : anime) :
  well_formed data →
  let st := raw_status data in
  let w := read_count (a_watching data) in
  let c := read_count (a_completed data) in
  let dr := read_count (a_dropped data) in
  let p := read_count (a_plan_to_watch data) in
  let nya := String.eqb st "not_yet_aired" && (w <? 200 + p / 250) in
  let keeps :=
    String.eqb st "finished_airing" ||
    String.eqb st "currently_airing" && (100 + (w + 29) / 30 <=? c) ||
    negb (String.eqb st "not_yet_aired" ||
          String.eqb st "finished_airing" ||
          String.eqb st "currently_airing") in
  let W := if nya then 0 else w in
  let C := if keeps then c else 0 in
  let D := if nya then 0 else dr in
  ∃ d, calculate_variables data = Some d ∧ derive data = d ∧
    d_watching d = W ∧ d_completed d = C ∧ d_dropped d = D ∧ d_ptw d = p ∧
    drop_rate_expr D (W + C + D) = Some (drop_rate d) ∧
    active_ratio_expr (W + C) p = Some (ptw_ratio d) ∧
    (W + C + D = 0 → drop_rate d = 0%Q) ∧
    (p = 0 → ptw_ratio d = 0%Q) ∧
    (0 < W + C + D → drop_rate d = (inject_Z D / inject_Z (W + C + D))%Q) ∧
    (0 < p → ptw_ratio d = (inject_Z (W + C) / inject_Z p)%Q) ∧
    (nonneg_counts data → (0 <= drop_rate d)%Q ∧ (0 <= ptw_ratio d)%Q).
Proof.
  intros Hwf st w c dr p nya keeps W C D.
  pose proof (calculate_variables_wf _ Hwf) as Hcv. fold st w c dr p in Hcv.
  exists (classify st w c dr p). split; [exact Hcv|].
  split; [unfold derive; rewrite Hcv; reflexivity|].
  destruct (classify_counts st w c dr p) as (Hw & Hc & Hd).
  fold nya keeps W C D in Hw, Hc, Hd.
  destruct (classify_fields st w c dr p) as (Fp & Fwc & Fwd & Far).
  set (d := classify st w c dr p) in *.
  assert (d_watch_drop d = W + C + D) as Hwd by (rewrite Fwd, Fwc; congruence).
  assert (d_watch_comp d = W + C) as Hwc by (rewrite Fwc; congruence).
  assert (drop_rate d =
            (if 0 <? W + C + D
             then (inject_Z D / inject_Z (W + C + D))%Q else 0%Q)) as Hdrop
    by (unfold drop_rate; rewrite Hwd, Hd; reflexivity).
  assert (ptw_ratio d =
            (if 0 <? p then (inject_Z (W + C) / inject_Z p)%Q else 0%Q)) as Hptw
    by (unfold ptw_ratio; rewrite Far, Hwc; reflexivity).
  split; [exact Hw|]. split; [exact Hc|]. split; [exact Hd|]. split; [exact Fp|].
  rewrite drop_rate_expr_Some, active_ratio_expr_Some, Hdrop, Hptw.
  split; [reflexivity|]. split; [reflexivity|].
  split; [intros ->; reflexivity|].
  split; [intros ->; reflexivity|].
  split; [intros H; destruct (Z.ltb_spec 0 (W + C + D)); [reflexivity | lia]|].
  split; [intros H; destruct (Z.ltb_spec 0 p); [reflexivity | lia]|].
  intros (_ & Nw & Nc & Ndr & Np). fold w c dr p in Nw, Nc, Ndr, Np.
  assert (0 <= W ∧ 0 <= C ∧ 0 <= D) as (NW & NC & ND).
  { subst W C D. destruct nya, keeps; lia. }
  split.
  - destruct (Z.ltb_spec 0 (W + C + D)); [apply Qdiv_nonneg; lia | apply Qle_refl].
  - destruct (Z.ltb_spec 0 p); [apply Qdiv_nonneg; lia | apply Qle_refl].
Qed.

Lemma sample_bare_nonneg s : nonneg_counts (sample_bare s).
Proof. split; [apply sample_bare_wf | simpl; lia]. Qed.

Lemma titled_nonneg id title mean w :
  0 <= w → nonneg_counts (titled id title mean (Some (IntLike w))).
Proof. intros Hw. split; [repeat split; discriminate | simpl; lia]. Qed.

(** With watching, completed, dropped and plan-to-watch all 0 both ratios
    are 0; a finished title with 10 watching, 10 completed, 1 dropped and
    100 plan-to-watch has the drop rate 1/21 and the ratio 20/100. *)
Lemma ratios_nonneg_and_zero_safe_witness :
  well_formed (sample_bare (Some "currently_airing"%string)) ∧
  well_formed (titled 1 "Alpha" (Some (8 # 1)) (Some (IntLike 10))) ∧
  (∃ d, calculate_variables (sample_bare (Some "currently_airing"%string)) = Some d ∧
        drop_rate_expr 0 0 = Some (drop_rate d) ∧
        active_ratio_expr 0 0 = Some (ptw_ratio d) ∧
        drop_rate d = 0%Q ∧ ptw_ratio d = 0%Q) ∧
  (∃ d, calculate_variables (titled 1 "Alpha" (Some (8 # 1)) (Some (IntLike 10))) = Some d ∧
        d_watching d = 10 ∧ d_completed d = 10 ∧ d_dropped d = 1 ∧ d_ptw d = 100 ∧
        drop_rate d = (1 # 21)%Q ∧ ptw_ratio d = (20 # 100)%Q ∧
        (0 <= drop_rate d)%Q ∧ (0 <= ptw_ratio d)%Q).
Proof.
  assert (well_formed (sample_bare (Some "currently_airing"%string))) as Hb
    by apply sample_bare_wf.
  assert (nonneg_counts (titled 1 "Alpha" (Some (8 # 1)) (Some (IntLike 10)))) as Ht
    by (apply titled_nonneg; lia).
  split; [exact Hb|]. split; [exact (proj1 Ht)|]. split.
  - destruct (ratios_nonneg_and_zero_safe _ Hb)
      as (d & Hd & _ & _ & _ & _ & _ & Hde & Hae & Hdr & Hpr & _).
    exists d. split; [exact Hd|].
    split; [exact Hde|]. split; [exact Hae|].
    split; [apply Hdr | apply Hpr]; reflexivity.
  - destruct (ratios_nonneg_and_zero_safe _ (proj1 Ht))
      as (d & Hd & _ & Hw & Hc & Hdr & Hp & _ & _ & _ & _ & Hdq & Hpq & Hnn).
    exists d. split; [exact Hd|].
    split; [exact Hw|]. split; [exact Hc|]. split; [exact Hdr|]. split; [exact Hp|].
    split; [apply Hdq; reflexivity|]. split; [apply Hpq; reflexivity|].
    exact (Hnn Ht).
Defined.

(** ** The decision table with the floors of the specification *)

Lemma sample_unaired_ptw_1_wf w : well_formed (sample_unaired_ptw_1 w).
Proof. repeat split; discriminate. Qed.

(** With [ceil(200 + plan_to_watch / 250)] and [ceil(100 + watching / 30)]
    as the floors, every row of the table holds on every well-formed record
    but the first, and the first holds unless watching stands exactly at
    [200 + floor(plan_to_watch / 250)] with plan-to-watch no multiple of
    250: there the table says NYA and the script says PRE. *)
Lemma decision_table_spec_floors (data : anime) :
  well_formed data →
  let w := read_count (a_watching data) in
  let c := read_count (a_completed data) in
  let dr := read_count (a_dropped data) in
  let p := read_count (a_plan_to_watch data) in
  ∃ d, calculate_variables data = Some d ∧
    (raw_status data = "not_yet_aired"%string → w < spec_preairNoiseFloor p →
     p mod 250 = 0 ∨ w ≠ 200 + p / 250 →
       d_status_code d = NYA ∧ d_watching d = 0 ∧ d_completed d = 0 ∧ d_dropped d = 0) ∧
    (raw_status data = "not_yet_aired"%string → w < spec_preairNoiseFloor p →
     p mod 250 ≠ 0 → w = 200 + p / 250 →
       d_status_code d = PRE ∧ d_watching d = w ∧ d_completed d = 0 ∧ d_dropped d = dr) ∧
    (raw_status data = "not_yet_aired"%string → spec_preairNoiseFloor p <= w →
       d_status_code d = PRE ∧ d_watching d = w ∧ d_completed d = 0 ∧ d_dropped d = dr) ∧
    (raw_status data = "finished_airing"%string →
       d_status_code d = FIN ∧ d_watching d = w ∧ d_completed d = c ∧ d_dropped d = dr) ∧
    (raw_status data = "currently_airing"%string → c < spec_completedNoiseFloor w →
       d_status_code d = AIR ∧ d_watching d = w ∧ d_completed d = 0 ∧ d_dropped d = dr) ∧
    (raw_status data = "currently_airing"%string → spec_completedNoiseFloor w <= c →
       d_status_code d = FINq ∧ d_watching d = w ∧ d_completed d = c ∧ d_dropped d = dr) ∧
    (raw_status data ≠ "not_yet_aired"%string →
     raw_status data ≠ "finished_airing"%string →
     raw_status data ≠ "currently_airing"%string →
       d_status_code d = UNK) ∧
    In (d_status_code d) [NYA; PRE; AIR; FINq; FIN; UNK].
Proof.
  intros Hwf w c dr p.
  destruct (calculate_variables_decision_table data Hwf)
    as (d & Hd & _ & Hnya & Hpre & Hfin & Hair & Hfinq & Hunk & Hin).
  fold w c dr p in Hnya, Hpre, Hair, Hfinq, Hfin.
  destruct (preair_noise_floor_vs_spec p) as [Heq Hne].
  assert (preair_noise_floor p = 200 + p / 250) as Hfloor by reflexivity.
  exists d. split; [exact Hd|].
  split; [|split; [|split; [|split; [|split; [|split; [|split]]]]]];
    try assumption.
  - intros Hs Hlt Hor. apply Hnya; [exact Hs|].
    destruct (Z.eq_dec (p mod 250) 0) as [H0|H0].
    + rewrite (Heq H0). exact Hlt.
    + specialize (Hne H0). destruct Hor as [|Hw]; [contradiction|]. lia.
  - intros Hs _ _ Hw. apply Hpre; [exact Hs|]. lia.
  - intros Hs Hle. apply Hpre; [exact Hs|].
    destruct (Z.eq_dec (p mod 250) 0) as [H0|H0].
    + rewrite (Heq H0). exact Hle.
    + specialize (Hne H0). lia.
Qed.

(** C2.  The table is to be read with the floors of the specification,
    first match winning.  Its first row fails: a not-yet-aired title with
    200 watching and one plan-to-watch user is below the floor
    [ceil(200 + 1 / 250) = 201] and so NYA with the counts zeroed, but the
    script, whose floor is [200 + 1 // 250 = 200], returns PRE with
    watching and dropped kept.  With 199 watching it is NYA and with 201
    PRE, as the table has it. *)
Theorem decision_table_first_row_at_ptw_1 :
  well_formed (sample_unaired_ptw_1 200) ∧
  raw_status (sample_unaired_ptw_1 200) = "not_yet_aired"%string ∧
  read_count (a_watching (sample_unaired_ptw_1 200)) = 200 ∧
  spec_preairNoiseFloor
    (read_count (a_plan_to_watch (sample_unaired_ptw_1 200))) = 201 ∧
  calculate_variables (sample_unaired_ptw_1 200) = Some (finish PRE 200 0 7 1) ∧
  calculate_variables (sample_unaired_ptw_1 199) = Some (finish NYA 0 0 0 1) ∧
  calculate_variables (sample_unaired_ptw_1 201) = Some (finish PRE 201 0 7 1) ∧
  d_status_code (finish PRE 200 0 7 1) = PRE ∧
  d_watching (finish PRE 200 0 7 1) = 200 ∧
  d_completed (finish PRE 200 0 7 1) = 0 ∧
  d_dropped (finish PRE 200 0 7 1) = 7.
Proof.
  split; [apply sample_unaired_ptw_1_wf|].
  repeat split; vm_compute; reflexivity.
Qed.

(** ** The counting period *)

Lemma period_is_2_spec p : period_is_2 p = true ↔ p = Period 2.
Proof.
  destruct p as [|n]; simpl; [split; discriminate|].
  rewrite Z.eqb_eq. split; [intros ->; reflexivity | intros [= ->]; reflexivity].
Qed.

Lemma counted_spec p period_start period_end t :
  counted p period_start period_end t = true ↔
  (p = Period 2 ∧ t < period_end) ∨
  (p ≠ Period 2 ∧ period_start <= t < period_end).
Proof.
  unfold counted. pose proof (period_is_2_spec p) as H2.
  destruct (period_is_2 p).
  - rewrite Z.ltb_lt. split.
    + intros Ht. left. split; [apply H2; reflexivity | exact Ht].
    + intros [[_ Ht] | [Hne _]]; [exact Ht|]. exfalso. apply Hne, H2. reflexivity.
  - rewrite andb_true_iff, Z.leb_le, Z.ltb_lt. split.
    + intros Ht. right. split; [|lia]. intros E. apply H2 in E. discriminate.
    + intros [[E _] | [_ Ht]]; [|lia]. apply H2 in E. discriminate.
Qed.

Lemma thread_posters_acc p s e details (acc : gset string) u :
  u ∈ fold_left
        (fun posters d =>
           if counted p s e (timestamp d) then posters ∪ {[ username d ]} else posters)
        details acc
  ↔ u ∈ acc ∨ ∃ d, d ∈ details ∧ username d = u ∧ counted p s e (timestamp d) = true.
Proof.
  revert acc. induction details as [|d details IH]; intros acc; simpl.
  - split; [auto|]. intros [H | (d & Hd & _)]; [exact H|]. inversion Hd.
  - rewrite IH. split.
    + intros [H | (d' & Hd' & Hu & Hc)].
      * destruct (counted p s e (timestamp d)) eqn:Hc.
        -- apply elem_of_union in H as [H | H]; [left; exact H|].
           apply elem_of_singleton in H. right. exists d.
           split; [left|]. auto.
        -- left. exact H.
      * right. exists d'. split; [right; exact Hd' | auto].
    + intros [H | (d' & Hd' & Hu & Hc)].
      * left. destruct (counted p s e (timestamp d)); [|exact H].
        apply elem_of_union. left. exact H.
      * apply elem_of_cons in Hd' as [-> | Hd'].
        -- left. rewrite Hc. apply elem_of_union. right.
           apply elem_of_singleton. symmetry. exact Hu.
        -- right. exists d'. auto.
Qed.

(** C8.  A post with timestamp [t] passes the test of the counting loop
    exactly when the period number is 2 and [t] is before the period end,
    or the period number is not 2 and [t] is at or after the period start
    and before the period end; and a user is among the unique posters of a
    thread exactly when one of their posts in the thread passes it. *)
Theorem counted_in_period (p : period) (period_start period_end : instant)
    (details : list detail) :
  (∀ t, counted p period_start period_end t = true ↔
        (p = Period 2 ∧ t < period_end) ∨
        (p ≠ Period 2 ∧ period_start <= t < period_end)) ∧
  (∀ u, u ∈ thread_posters p period_start period_end details ↔
        ∃ d, d ∈ details ∧ username d = u ∧
             ((p = Period 2 ∧ timestamp d < period_end) ∨
              (p ≠ Period 2 ∧ period_start <= timestamp d < period_end))).
Proof.
  split; [intros t; apply counted_spec|].
  intros u. unfold thread_posters. rewrite thread_posters_acc. split.
  - intros [H | (d & Hd & Hu & Hc)]; [exfalso; set_solver|].
    exists d. rewrite <- counted_spec. auto.
  - intros (d & Hd & Hu & Hc). right. exists d. rewrite counted_spec. auto.
Qed.

(** A post before the period start and before its end counts in period 2
    and in no other period. *)
Lemma early_post_counts_only_in_period_2 (n : Z) (period_start period_end t : instant) :
  t < period_start → t < period_end →
  counted (Period n) period_start period_end t = Z.eqb n 2.
Proof.
  intros Hs He. unfold counted. simpl. destruct (Z.eqb_spec n 2).
  - apply Z.ltb_lt. exact He.
  - apply andb_false_iff. left. apply Z.leb_gt. exact Hs.
Qed.

(** ** The stable sort *)

Section PySortedFacts.
Context {K A : Type} (ltb : K → K → bool).

Lemma insert_keyed_perm (kx : K * A) l : Permutation (insert_keyed ltb kx l) (kx :: l).
Proof.
  induction l as [|ky l IH]; simpl; [reflexivity|].
  destruct (ltb ky.1 kx.1); [|reflexivity].
  rewrite IH. apply perm_swap.
Qed.

Lemma sort_keyed_perm (l : list (K * A)) : Permutation (sort_keyed ltb l) l.
Proof.
  induction l as [|kx l IH]; simpl; [reflexivity|].
  rewrite insert_keyed_perm. apply perm_skip, IH.
Qed.

Lemma mapM_with_key (key : A → option K) l keyed :
  mapM (with_key key) l = Some keyed →
  map snd keyed = l ∧ Forall (fun kx => key kx.2 = Some kx.1) keyed.
Proof.
  intros H. apply mapM_Some in H.
  induction H as [|x kx l keyed Hx _ IH]; simpl; [split; constructor|].
  unfold with_key in Hx. destruct (key x) as [k|] eqn:Hk; simpl in Hx; [|discriminate].
  injection Hx as <-. destruct IH as [IH1 IH2]. simpl. split.
  - f_equal. exact IH1.
  - constructor; [exact Hk | exact IH2].
Qed.

(** Sorting only reorders. *)
Lemma sorted_perm (key : A → option K) l out :
  sorted ltb key l = Some out → Permutation out l.
Proof.
  unfold sorted. intros H.
  destruct (mapM (with_key key) l) as [keyed|] eqn:Hk; simpl in H; [|discriminate].
  injection H as <-. apply mapM_with_key in Hk as [Hl _].
  rewrite <- Hl. apply Permutation_map, sort_keyed_perm.
Qed.

(** Sorting raises exactly when some key does. *)
Lemma sorted_is_Some (key : A → option K) l :
  Forall (fun x => is_Some (key x)) l → is_Some (sorted ltb key l).
Proof.
  intros H. unfold sorted.
  assert (is_Some (mapM (with_key key) l)) as [keyed ->]; [|simpl; eauto].
  apply mapM_is_Some. eapply Forall_impl; [exact H|].
  intros x [k Hk]. unfold compose, with_key. rewrite Hk. simpl. eauto.
Qed.

(** When sorting returns, the key of every element is defined. *)
Lemma sorted_keys_defined (key : A → option K) l out x :
  sorted ltb key l = Some out → In x out → is_Some (key x).
Proof.
  unfold sorted. intros H Hx.
  destruct (mapM (with_key key) l) as [keyed|] eqn:Hk; simpl in H; [|discriminate].
  injection H as <-. apply mapM_with_key in Hk as [_ Hkeys].
  apply in_map_iff in Hx as (kx & <- & Hin).
  apply (Permutation_in _ (sort_keyed_perm keyed)) in Hin.
  rewrite List.Forall_forall in Hkeys. rewrite (Hkeys _ Hin). eauto.
Qed.

Hypothesis ltb_asym : ∀ a b, ltb a b = true → ltb b a = false.
Hypothesis ltb_negtrans : ∀ a b c, ltb b a = false → ltb c b = false → ltb c a = false.

Lemma insert_keyed_sorted (kx : K * A) l :
  StronglySorted (fun a b => ltb b.1 a.1 = false) l →
  StronglySorted (fun a b => ltb b.1 a.1 = false) (insert_keyed ltb kx l).
Proof.
  induction 1 as [|ky l Hs IH Hall]; simpl.
  - constructor; constructor.
  - destruct (ltb ky.1 kx.1) eqn:E.
    + constructor; [exact IH|].
      rewrite List.Forall_forall. intros z Hz.
      apply (Permutation_in _ (insert_keyed_perm kx l)) in Hz as [<- | Hz].
      * apply ltb_asym, E.
      * rewrite List.Forall_forall in Hall. apply Hall, Hz.
    + constructor; [constructor; assumption|].
      constructor; [exact E|].
      eapply Forall_impl; [exact Hall|].
      intros z Hz. simpl in Hz. eapply ltb_negtrans; eassumption.
Qed.

Lemma sort_keyed_sorted (l : list (K * A)) :
  StronglySorted (fun a b => ltb b.1 a.1 = false) (sort_keyed ltb l).
Proof.
  induction l as [|kx l IH]; simpl; [constructor|].
  apply insert_keyed_sorted, IH.
Qed.

Lemma StronglySorted_after (R : K * A → K * A → Prop) l1 y l2 x :
  StronglySorted R (l1 ++ y :: l2) → In x l2 → R y x.
Proof.
  induction l1 as [|z l1 IH]; simpl; intros Hs Hx.
  - inversion Hs as [|? ? _ Hall]; subst.
    rewrite List.Forall_forall in Hall. apply Hall, Hx.
  - inversion Hs; subst. apply IH; assumption.
Qed.

(** In the output no element stands after one with a larger key. *)
Lemma sorted_order (key : A → option K) l out l1 y l2 x kx ky :
  sorted ltb key l = Some out →
  out = l1 ++ y :: l2 → In x l2 →
  key x = Some kx → key y = Some ky →
  ltb kx ky = false.
Proof.
  unfold sorted. intros H Hout Hx Hkx Hky.
  destruct (mapM (with_key key) l) as [keyed|] eqn:Hk; simpl in H; [|discriminate].
  injection H as H. apply mapM_with_key in Hk as [_ Hkeys].
  assert (Forall (fun kz => key kz.2 = Some kz.1) (sort_keyed ltb keyed)) as Hkeys'.
  { rewrite List.Forall_forall in Hkeys |- *. intros z Hz. apply Hkeys.
    eapply Permutation_in; [apply sort_keyed_perm | exact Hz]. }
  pose proof (sort_keyed_sorted keyed) as Hs.
  rewrite Hout in H.
  apply map_eq_app in H as (k1 & k2' & Hsk & Hk1 & Hk2').
  apply map_eq_cons in Hk2' as (ky' & k2 & -> & Hy & Hk2).
  rewrite Hsk in Hs, Hkeys'.
  rewrite <- Hk2 in Hx. apply in_map_iff in Hx as (kx' & Hx' & Hin).
  pose proof (StronglySorted_after _ _ _ _ _ Hs Hin) as Hle. simpl in Hle.
  rewrite List.Forall_forall in Hkeys'.
  assert (key ky'.2 = Some ky'.1) as E1 by (apply Hkeys', in_or_app; right; left; reflexivity).
  assert (key kx'.2 = Some kx'.1) as E2 by (apply Hkeys', in_or_app; right; right; exact Hin).
  rewrite Hy, Hky in E1. rewrite Hx', Hkx in E2.
  injection E1 as E1. injection E2 as E2. rewrite E1, E2. exact Hle.
Qed.

End PySortedFacts.

(** ** The order on the sort keys *)

Lemma Qltb_lt p q : Qltb p q = true ↔ (p < q)%Q.
Proof.
  unfold Qltb. rewrite negb_true_iff. split.
  - intros H. apply Qnot_le_lt. intros Hle.
    apply Qle_bool_iff in Hle. congruence.
  - intros H. destruct (Qle_bool q p) eqn:E; [|reflexivity].
    apply Qle_bool_iff in E. exfalso. exact (Qlt_not_le _ _ H E).
Qed.

Lemma Qltb_ge p q : Qltb p q = false ↔ (q <= p)%Q.
Proof.
  unfold Qltb. rewrite negb_false_iff. apply Qle_bool_iff.
Qed.

Lemma xltb_asym a b : xltb a b = true → xltb b a = false.
Proof.
  destruct a as [|p|], b as [|q|]; simpl; try reflexivity; try discriminate.
  rewrite Qltb_lt, Qltb_ge. apply Qlt_le_weak.
Qed.

Lemma xltb_negtrans a b c : xltb b a = false → xltb c b = false → xltb c a = false.
Proof.
  destruct a as [|p|], b as [|q|], c as [|r|]; simpl;
    try reflexivity; try discriminate.
  rewrite !Qltb_ge. intros H1 H2. eapply Qle_trans; eassumption.
Qed.

Lemma pair_ltb_asym a b : pair_ltb a b = true → pair_ltb b a = false.
Proof.
  destruct a as [[] x], b as [[] y]; unfold pair_ltb; simpl;
    try reflexivity; try discriminate; apply xltb_asym.
Qed.

Lemma pair_ltb_negtrans a b c :
  pair_ltb b a = false → pair_ltb c b = false → pair_ltb c a = false.
Proof.
  destruct a as [[] x], b as [[] y], c as [[] z]; unfold pair_ltb; simpl;
    try reflexivity; try discriminate; apply xltb_negtrans.
Qed.

(** ** The sort stage *)

Lemma key_derived_leads proj : leads_with_isinstance (key_derived proj).
Proof.
  intros [a|m] k; simpl; [|intros [= <-]; reflexivity].
  destruct (calculate_variables a); simpl; intros [= <-]. reflexivity.
Qed.

Lemma sort_data_pair_column pc (d : pydict row) col :
  In col pair_columns →
  ∃ key, leads_with_isinstance key ∧
         sort_data pc d col = sorted pair_ltb key (dict_values d).
Proof.
  unfold pair_columns. simpl.
  intros [<-|[<-|[<-|[<-|[<-|[<-|[<-|[<-|[<-|[<-|[<-|[<-|[]]]]]]]]]]]]];
    unfold sort_data; simpl; eexists; (split; [|reflexivity]);
    try apply key_derived_leads;
    intros [a|m] k; simpl; try (intros [= <-]; reflexivity).
  - destruct pc as [pc|]; simpl; [|discriminate].
    destruct (a_id a); simpl; intros [= <-]. reflexivity.
  - destruct (calculate_variables a); simpl; [|discriminate].
    destruct (0 <? d_watch_drop d0); intros [= <-]; reflexivity.
  - destruct (calculate_variables a); simpl; intros [= <-]. reflexivity.
  - destruct (a_id a); simpl; intros [= <-]. reflexivity.
Qed.

(** [sort_data] only reorders the values of [datas]. *)
Lemma sort_data_perm pc (d : pydict row) col out :
  sort_data pc d col = Some out → Permutation out (dict_values d).
Proof.
  unfold sort_data.
  repeat match goal with
  | |- context [if ?b then _ else _] => destruct b; [apply sorted_perm|]
  end.
  intros [= <-]. reflexivity.
Qed.

(** For the columns B to M the error texts come after every record. *)
Lemma sort_data_errors_last pc (d : pydict row) col out l1 msg l2 a :
  In col pair_columns →
  sort_data pc d col = Some out →
  out = l1 ++ RErr msg :: l2 →
  ¬ In (RData a) l2.
Proof.
  intros Hcol Hs Hout Hin.
  destruct (sort_data_pair_column pc d col Hcol) as (key & Hlead & Heq).
  rewrite Heq in Hs.
  assert (is_Some (key (RErr msg)) ∧ is_Some (key (RData a))) as [[ke Hke] [ka Hka]].
  { split; apply (sorted_keys_defined pair_ltb key _ _ _ Hs);
      rewrite Hout; apply in_or_app; right;
      [left; reflexivity | right; exact Hin]. }
  pose proof (sorted_order pair_ltb pair_ltb_asym pair_ltb_negtrans
                key _ _ _ _ _ _ _ _ Hs Hout Hin Hka Hke) as Hord.
  apply Hlead in Hke, Hka. simpl in Hke, Hka.
  destruct ke as [be xe], ka as [ba xa]. simpl in *. subst.
  unfold pair_ltb in Hord. simpl in Hord. discriminate.
Qed.

(** The title key is the one branch that does not lead its key with
    [isinstance(x, str)]: were an error text among the values, its key
    would be the text itself, compared with the lower-cased titles, and the
    message [Error: no data] would stand before the title [Zeta]. *)
Lemma sort_data_title_error_first :
  sort_data None rows_title_and_error "A" =
    Some [RErr "Error: no data";
          RData (titled 4 "Zeta" (Some (8 # 1)) (Some (IntLike 50)))].
Proof.
  vm_compute; reflexivity.
Qed.

(** C5.  Rows with missing data are to sort after every other row under
    every key.  Under the score key they do not: a run over the titles 1
    and 2, where the record of title 2 carries no score, hands the renderer
    title 2 first and the scored title 1 second, against the comment
    [higher to lower to null] on that branch.  By ID the rows
    [{id:5}, {id:1}, "ERR-row", {id:3}] do come out as
    [{id:1}, {id:3}, {id:5}, "ERR-row"]. *)
Theorem final_rows_unscored_title_first :
  main settings_by_score transport_unscored [1; 2] = rows_scored_then_unscored ∧
  a_mean (titled 2 "Beta" None (Some (IntLike 20))) = None ∧
  final_rows settings_by_score transport_unscored [1; 2] =
    Some [RData (titled 2 "Beta" None (Some (IntLike 20)));
          RData (titled 1 "Alpha" (Some (8 # 1)) (Some (IntLike 10)))] ∧
  sort_data None rows_5_1_err_3 "M" =
    Some [RData (titled 1 "Alpha" (Some (7 # 1)) (Some (IntLike 10)));
          RData (titled 3 "Gamma" (Some (6 # 1)) (Some (IntLike 30)));
          RData (titled 5 "Epsilon" (Some (8 # 1)) (Some (IntLike 50)));
          RErr "ERR-row"].
Proof.
  repeat split; vm_compute; reflexivity.
Qed.

(** ** Missing values under the descending keys *)

Lemma key_derived_order (proj : derived → Z) l out l1 b l2 a da db :
  sorted pair_ltb (key_derived (fun d => inject_Z (proj d))) l = Some out →
  out = l1 ++ RData b :: l2 → In (RData a) l2 →
  calculate_variables a = Some da → calculate_variables b = Some db →
  proj da <= proj db.
Proof.
  intros Hs Hout Hin Ha Hb.
  assert (pair_ltb (false, Fin (- inject_Z (proj da))%Q)
                   (false, Fin (- inject_Z (proj db))%Q) = false) as Hord.
  { eapply (sorted_order pair_ltb pair_ltb_asym pair_ltb_negtrans);
      [exact Hs | exact Hout | exact Hin | |]; simpl.
    - rewrite Ha. reflexivity.
    - rewrite Hb. reflexivity. }
  unfold pair_ltb in Hord. simpl in Hord. apply Qltb_ge in Hord.
  unfold Qle in Hord. simpl in Hord. lia.
Qed.

Lemma lacking_count_reads_zero col lacks proj b db :
  In (col, (lacks, proj)) count_columns →
  lacks b = true → calculate_variables b = Some db → proj db = 0.
Proof.
  unfold count_columns. simpl.
  intros [E|[E|[E|[E|[E|[]]]]]]; injection E as <- <- <-; intros Hl;
    try (apply andb_true_iff in Hl as [Hl Hl2]; apply bool_decide_eq_true in Hl2);
    apply bool_decide_eq_true in Hl;
    unfold calculate_variables; rewrite Hl; try rewrite Hl2; simpl;
    repeat match goal with
    | |- context [int_or_zero ?f] => destruct (int_or_zero f); simpl; [|discriminate]
    end;
    intros [= <-]; unfold classify; repeat case_match; reflexivity.
Qed.

Lemma sort_data_count_column pc (d : pydict row) col lacks proj :
  In (col, (lacks, proj)) count_columns →
  sort_data pc d col =
    sorted pair_ltb (key_derived (fun x => inject_Z (proj x))) (dict_values d).
Proof.
  unfold count_columns. simpl.
  intros [E|[E|[E|[E|[E|[]]]]]]; injection E as <- <- <-; reflexivity.
Qed.

(** C6 as stated fails.  By watching, a record without a watching count
    stays in front of a later record whose watching count is 0; by score,
    a record without a score is moved in front of a scored one. *)
Lemma missing_value_not_last :
  sort_data None rows_unwatched_then_zero "E" =
    Some [RData (titled 1 "Alpha" (Some (8 # 1)) None);
          RData (titled 2 "Beta" (Some (7 # 1)) (Some (IntLike 0)))] ∧
  sort_data None rows_scored_then_unscored "B" =
    Some [RData (titled 2 "Beta" None (Some (IntLike 20)));
          RData (titled 1 "Alpha" (Some (8 # 1)) (Some (IntLike 10)))].
Proof.
  split; vm_compute; reflexivity.
Qed.

(** C6, amended.  Under the count keys of the descending sort (watching,
    completed, W+C, dropped, plan-to-watch) a record that lacks the count
    is sorted with the value 0: no record that stands after it in the
    output has a strictly positive value of that key. *)
Theorem sort_data_missing_count_after_positive
    (pc : option (gmap Z Z)) (d : pydict row) (col : string)
    (lacks : anime → bool) (proj : derived → Z)
    (out l1 l2 : list row) (a b : anime) (da : derived) :
  In (col, (lacks, proj)) count_columns →
  sort_data pc d col = Some out →
  out = l1 ++ RData b :: l2 →
  lacks b = true →
  In (RData a) l2 →
  calculate_variables a = Some da →
  proj da <= 0.
Proof.
  intros Hcol Hs Hout Hl Hin Ha.
  rewrite (sort_data_count_column pc d col lacks proj Hcol) in Hs.
  assert (is_Some (calculate_variables b)) as [db Hb].
  { assert (is_Some (key_derived (fun x => inject_Z (proj x)) (RData b))) as [k Hk].
    { apply (sorted_keys_defined pair_ltb _ _ _ _ Hs).
      rewrite Hout. apply in_or_app. right. left. reflexivity. }
    simpl in Hk. destruct (calculate_variables b); [eauto | discriminate]. }
  rewrite <- (lacking_count_reads_zero col lacks proj b db Hcol Hl Hb).
  eapply key_derived_order; eassumption.
Qed.

Lemma sort_data_missing_count_after_positive_witness :
  sort_data None rows_unwatched_then_zero "E" =
    Some ([] ++ RData (titled 1 "Alpha" (Some (8 # 1)) None)
             :: [RData (titled 2 "Beta" (Some (7 # 1)) (Some (IntLike 0)))]) ∧
  ∃ da, calculate_variables (titled 2 "Beta" (Some (7 # 1)) (Some (IntLike 0))) = Some da ∧
        d_watching da <= 0.
Proof.
  split; [vm_compute; reflexivity|].
  eexists. split; [vm_compute; reflexivity|].
  apply (sort_data_missing_count_after_positive None rows_unwatched_then_zero "E"
           (fun a => bool_decide (a_watching a = None)) d_watching
           [RData (titled 1 "Alpha" (Some (8 # 1)) None);
            RData (titled 2 "Beta" (Some (7 # 1)) (Some (IntLike 0)))]
           []
           [RData (titled 2 "Beta" (Some (7 # 1)) (Some (IntLike 0)))]
           (titled 2 "Beta" (Some (7 # 1)) (Some (IntLike 0)))
           (titled 1 "Alpha" (Some (8 # 1)) None)).
  - left. reflexivity.
  - vm_compute. reflexivity.
  - reflexivity.
  - reflexivity.
  - left. reflexivity.
  - vm_compute. reflexivity.
Defined.

(** ** The batch fetch *)

Lemma dict_get_set {V} k k' (v : V) d :
  dict_get k (dict_set k' v d) = if k' =? k then Some v else dict_get k d.
Proof.
  induction d as [|[k0 v0] d IH]; simpl.
  - reflexivity.
  - destruct (Z.eqb_spec k0 k') as [->|Hne]; simpl.
    + destruct (k' =? k); reflexivity.
    + rewrite IH. destruct (Z.eqb_spec k0 k) as [->|]; [|reflexivity].
      destruct (Z.eqb_spec k' k); [congruence | reflexivity].
Qed.

Lemma dict_set_fresh {V} k (v : V) d :
  ¬ In k (dict_keys d) → dict_set k v d = d ++ [(k, v)].
Proof.
  induction d as [|[k0 v0] d IH]; simpl; intros Hk; [reflexivity|].
  destruct (Z.eqb_spec k0 k) as [->|Hne]; [tauto|].
  rewrite IH; [reflexivity | tauto].
Qed.

Lemma collect_mem pairs acc id :
  dict_mem id (fold_left collect_step pairs acc) = true ↔
  dict_mem id acc = true ∨ ∃ a, In (id, Some a) pairs.
Proof.
  revert acc. induction pairs as [|[k r] pairs IH]; intros acc; simpl.
  - split; [auto | intros [H | (a & [])]; exact H].
  - rewrite IH. unfold collect_step. simpl. split.
    + intros [H | (a & Ha)]; [|right; eauto].
      destruct r as [a|]; [|left; exact H].
      unfold dict_mem in H |- *. rewrite dict_get_set in H.
      destruct (Z.eqb_spec k id) as [->|]; [right; eauto | left; exact H].
    + intros [H | (a & [E | Ha])]; [| |right; eauto]; left.
      * destruct r as [a|]; [|exact H].
        unfold dict_mem in H |- *. rewrite dict_get_set.
        destruct (k =? id); [reflexivity | exact H].
      * injection E as -> ->. unfold dict_mem. rewrite dict_get_set.
        rewrite Z.eqb_refl. reflexivity.
Qed.

Lemma collect_fresh pairs acc :
  NoDup (map fst pairs) →
  (∀ k, In k (map fst pairs) → ¬ In k (dict_keys acc)) →
  fold_left collect_step pairs acc =
    acc ++ omap (fun p : Z * option anime =>
                   (fun a => (p.1, RData a)) <$> p.2) pairs.
Proof.
  revert acc. induction pairs as [|[k r] pairs IH]; intros acc Hnd Hfresh; simpl.
  - rewrite app_nil_r. reflexivity.
  - apply NoDup_cons in Hnd as [Hk Hnd].
    destruct r as [a|]; simpl.
    + change (collect_step acc (k, Some a)) with (dict_set k (RData a) acc).
      rewrite dict_set_fresh by (apply Hfresh; left; reflexivity).
      rewrite IH; [rewrite <- app_assoc; reflexivity | exact Hnd |].
      intros k' Hk'. unfold dict_keys. rewrite map_app, in_app_iff. simpl.
      intros [H | [<- | []]].
      * exact (Hfresh k' (or_intror Hk') H).
      * apply Hk, list_elem_of_In, Hk'.
    + change (collect_step acc (k, None)) with acc.
      apply IH; [exact Hnd|]. intros k' Hk'. apply Hfresh. right. exact Hk'.
Qed.

Lemma combine_gather cfg tr ids :
  combine ids (gather cfg tr ids) = map (fun id => (id, response cfg tr id)) ids.
Proof.
  unfold gather. induction ids as [|id ids IH]; simpl; [reflexivity|].
  rewrite IH. reflexivity.
Qed.

(** The mapping returned by [main] holds exactly the requested titles
    whose fetch returned a record. *)
Lemma main_mem cfg tr ids id :
  dict_mem id (main cfg tr ids) = true ↔ In id ids ∧ is_Some (response cfg tr id).
Proof.
  unfold main, collect.
  rewrite collect_mem, combine_gather. split.
  - intros [H | (a & Ha)]; [discriminate|].
    apply in_map_iff in Ha as (id' & E & Hin). injection E as -> E.
    split; [exact Hin | rewrite E; eauto].
  - intros (Hin & a & Ha). right. exists a. apply in_map_iff.
    exists id. rewrite Ha. auto.
Qed.

(** On a list without repetition the mapping lists the successful titles
    in request order. *)
Lemma main_NoDup cfg tr ids :
  NoDup ids →
  main cfg tr ids =
    omap (fun id => (fun a => (id, RData a)) <$> response cfg tr id) ids.
Proof.
  intros Hnd. unfold main, collect.
  rewrite combine_gather, collect_fresh.
  - simpl. clear Hnd. induction ids as [|id ids IH]; simpl; [reflexivity|].
    destruct (response cfg tr id); simpl; [f_equal|]; exact IH.
  - rewrite map_map. simpl. rewrite map_id. exact Hnd.
  - intros k _ [].
Qed.

(** What the primary batch leaves behind: the mapping holds the titles
    that were fetched, and the failure list holds the others. *)
Lemma primary_batch_accounting cfg tr ids sec id :
  (dict_mem id (datas (run_fetch cfg tr ids sec)) = true ↔
     In id ids ∧ is_Some (response cfg tr id)) ∧
  (In id (failed_anime_ids (run_fetch cfg tr ids sec)) ↔
     In id ids ∧ dict_mem id (datas (run_fetch cfg tr ids sec)) = false) ∧
  (In id (failed_anime_ids (run_fetch cfg tr ids sec)) ↔
     In id ids ∧ response cfg tr id = None).
Proof.
  unfold run_fetch. simpl. split; [apply main_mem|].
  assert (In id (List.filter (fun id0 => negb (dict_mem id0 (main cfg tr ids))) ids) ↔
          In id ids ∧ dict_mem id (main cfg tr ids) = false) as Hf.
  { rewrite filter_In, negb_true_iff. reflexivity. }
  split; [exact Hf|]. rewrite Hf. split.
  - intros [Hin Hm]. split; [exact Hin|].
    destruct (response cfg tr id) eqn:E; [|reflexivity].
    assert (dict_mem id (main cfg tr ids) = true) as Ht
      by (apply main_mem; rewrite E; eauto).
    congruence.
  - intros [Hin Hn]. split; [exact Hin|].
    destruct (dict_mem id (main cfg tr ids)) eqn:E; [|reflexivity].
    apply main_mem in E as [_ [a Ha]]. congruence.
Qed.

Lemma attempts_of_pos cfg : ∃ n, attempts_of cfg = S n.
Proof.
  unfold attempts_of. destruct (Z.to_nat (Z.max 1 (retry_limit cfg))) eqn:E.
  - lia.
  - eauto.
Qed.

(** Error 404 on the first attempt is final: no retry, no record. *)
Lemma fetch_not_found cfg (get : nat → outcome) :
  get 0%nat = HttpError 404 → fetch_anime_data cfg get = None.
Proof.
  intros H. unfold fetch_anime_data.
  destruct (attempts_of_pos cfg) as [n ->]. simpl. rewrite H. reflexivity.
Qed.

Lemma dict_values_main cfg tr ids :
  NoDup ids →
  dict_values (main cfg tr ids) = omap (fun id => RData <$> response cfg tr id) ids.
Proof.
  intros Hnd. rewrite (main_NoDup _ _ _ Hnd). unfold dict_values. clear Hnd.
  induction ids as [|id ids IH]; simpl; [reflexivity|].
  destruct (response cfg tr id); simpl; [f_equal|]; exact IH.
Qed.

Lemma failed_list cfg tr ids sec :
  failed_anime_ids (run_fetch cfg tr ids sec) =
    List.filter (fun id => is_failure (response cfg tr id)) ids.
Proof.
  unfold run_fetch. simpl.
  assert (∀ l, (∀ id, In id l → In id ids) →
            List.filter (fun id => negb (dict_mem id (main cfg tr ids))) l =
            List.filter (fun id => is_failure (response cfg tr id)) l)
    as H; [|apply H; auto].
  induction l as [|id l IH]; intros Hsub; simpl; [reflexivity|].
  rewrite IH by (intros; apply Hsub; right; assumption).
  replace (negb (dict_mem id (main cfg tr ids)))
    with (is_failure (response cfg tr id)); [reflexivity|].
  pose proof (main_mem cfg tr ids id) as Hm.
  destruct (dict_mem id (main cfg tr ids)); simpl.
  - destruct Hm as [Hm _]. destruct (Hm eq_refl) as [_ [a ->]]. reflexivity.
  - destruct (response cfg tr id) eqn:E; [|reflexivity].
    assert (false = true) by (apply Hm; split; [apply Hsub; left; reflexivity | eauto]).
    discriminate.
Qed.

(** Mapping and failure list together account for every requested title. *)
Lemma batch_length cfg tr ids sec :
  NoDup ids →
  (length (datas (run_fetch cfg tr ids sec)) +
   length (failed_anime_ids (run_fetch cfg tr ids sec)))%nat = length ids.
Proof.
  intros Hnd. rewrite failed_list. unfold run_fetch. simpl.
  rewrite (main_NoDup _ _ _ Hnd). clear Hnd. unfold omap.
  induction ids as [|id ids IH]; simpl; [reflexivity|].
  destruct (response cfg tr id); simpl; lia.
Qed.

Lemma filter_single (f : Z → bool) (l : list Z) (x : Z) :
  NoDup l → In x l → f x = true →
  (∀ y, In y l → y ≠ x → f y = false) →
  List.filter f l = [x].
Proof.
  induction l as [|z l IH]; intros Hnd Hin Hx Hother; [destruct Hin|].
  apply NoDup_cons in Hnd as [Hz Hnd]. simpl.
  destruct (Z.eq_dec z x) as [->|Hne].
  - rewrite Hx. f_equal.
    assert (∀ y, In y l → f y = false) as Hall.
    { intros y Hy. apply Hother; [right; exact Hy|].
      intros ->. apply Hz, list_elem_of_In, Hy. }
    clear -Hall. induction l as [|y l IH]; simpl; [reflexivity|].
    rewrite Hall by (left; reflexivity). apply IH.
    intros; apply Hall; right; assumption.
  - rewrite (Hother z) by (auto; left; reflexivity).
    destruct Hin as [->|Hin]; [congruence|].
    apply IH; auto. intros y Hy. apply Hother. right. exact Hy.
Qed.

(** A primary batch of N titles of which one is not found and the others
    are fetched: the mapping has N-1 entries and the failure list is that
    one title. *)
Lemma primary_batch_one_not_found cfg tr ids sec x :
  NoDup ids → In x ids →
  tr x 0%nat = HttpError 404 →
  (∀ y, In y ids → y ≠ x → is_Some (response cfg tr y)) →
  length (datas (run_fetch cfg tr ids sec)) = (length ids - 1)%nat ∧
  failed_anime_ids (run_fetch cfg tr ids sec) = [x].
Proof.
  intros Hnd Hin H404 Hok.
  assert (failed_anime_ids (run_fetch cfg tr ids sec) = [x]) as Hfailed.
  { rewrite failed_list. apply filter_single; auto.
    - unfold response. rewrite (fetch_not_found _ _ H404). reflexivity.
    - intros y Hy Hne. destruct (Hok y Hy Hne) as [a ->]. reflexivity. }
  split; [|exact Hfailed].
  pose proof (batch_length cfg tr ids sec Hnd) as Hlen.
  rewrite Hfailed in Hlen. change (length [x]) with 1%nat in Hlen. lia.
Qed.

(** C4.  Every title absent from the mapping of a batch fetch is to be in
    the failure list.  The batch of the secondary list breaks this: its
    mapping is built like the primary one, but nothing is added to the
    failure list.  With title 1 in the primary list and the missing title 2
    in the secondary list, the fetch of title 2 fails, title 2 is in neither
    mapping, and the failure list is empty. *)
Theorem secondary_failure_not_recorded :
  response default_settings transport_without_2 2 = None ∧
  dict_mem 2 (secondary_datas
                (run_fetch default_settings transport_without_2 [1] [2])) = false ∧
  dict_mem 2 (datas (run_fetch default_settings transport_without_2 [1] [2])) = false ∧
  failed_anime_ids (run_fetch default_settings transport_without_2 [1] [2]) = [].
Proof.
  repeat split; vm_compute; reflexivity.
Qed.

(** ** The rows handed to the renderer *)

(** C1 as stated fails: with titles 1 and 2 tracked and title 2 not found,
    the rows handed to [populate_sheet] are the one record of title 1;
    title 2 has no row, neither a record nor an error text. *)
Lemma failed_id_has_no_row :
  final_rows default_settings transport_without_2 [1; 2] =
    Some [RData (titled 1 "Served" (Some (7 # 1)) (Some (IntLike 10)))] ∧
  populate_sheet [RData (titled 1 "Served" (Some (7 # 1)) (Some (IntLike 10)))] =
    Some [DataRow "Served" (Some (7 # 1)) 0 0 10 10 20 1 (1 # 21) 100 (20 # 100) FIN 1] ∧
  failed_anime_ids (run_fetch default_settings transport_without_2 [1; 2] []) = [2].
Proof.
  repeat split; vm_compute; reflexivity.
Qed.

(** C1, amended.  For a tracking list without repetition, when the sort
    returns, the rows handed to the renderer are exactly the records of the
    tracked titles whose fetch succeeded, one row each; there is no error
    row among them, a title whose fetch failed has no row and is in the
    failure list, and rows and failure list together account for every
    tracked title. *)
Theorem final_rows_are_the_fetched_titles
    (cfg : settings) (tr : transport) (anime_ids : list Z) (rows : list row) :
  NoDup anime_ids →
  final_rows cfg tr anime_ids = Some rows →
  Permutation rows (omap (fun id => RData <$> response cfg tr id) anime_ids) ∧
  (∀ msg, ¬ In (RErr msg) rows) ∧
  (∀ id, In id anime_ids → response cfg tr id = None →
         In id (failed_anime_ids (run_fetch cfg tr anime_ids []))) ∧
  (length rows + length (failed_anime_ids (run_fetch cfg tr anime_ids [])))%nat
    = length anime_ids.
Proof.
  intros Hnd Hrows. unfold final_rows in Hrows.
  apply sort_data_perm in Hrows. pose proof (Permutation_length Hrows) as Hlen.
  rewrite (dict_values_main _ _ _ Hnd) in Hrows.
  split; [exact Hrows|]. split; [|split].
  - intros msg Hin. apply (Permutation_in _ Hrows) in Hin.
    apply list_elem_of_In, list_elem_of_omap in Hin as (id & _ & Hid).
    destruct (response cfg tr id); simpl in Hid; discriminate.
  - intros id Hin Hnone.
    apply (primary_batch_accounting cfg tr anime_ids [] id). auto.
  - rewrite Hlen. unfold dict_values. rewrite length_map.
    apply (batch_length cfg tr anime_ids [] Hnd).
Qed.

Lemma final_rows_are_the_fetched_titles_witness :
  final_rows default_settings transport_without_2 [1; 2] =
    Some [RData (titled 1 "Served" (Some (7 # 1)) (Some (IntLike 10)))] ∧
  Permutation [RData (titled 1 "Served" (Some (7 # 1)) (Some (IntLike 10)))]
    (omap (fun id => RData <$> response default_settings transport_without_2 id) [1; 2]) ∧
  In 2 (failed_anime_ids (run_fetch default_settings transport_without_2 [1; 2] [])).
Proof.
  assert (NoDup [1; 2]) as Hnd.
  { apply NoDup_cons. split; [|apply NoDup_cons; split; [|apply NoDup_nil; exact I]].
    - intros H. apply list_elem_of_In in H. destruct H as [H|[]]. discriminate.
    - intros H. apply list_elem_of_In in H. destruct H. }
  destruct (final_rows_are_the_fetched_titles default_settings transport_without_2
              [1; 2] [RData (titled 1 "Served" (Some (7 # 1)) (Some (IntLike 10)))]
              Hnd) as (Hperm & _ & Hfail & _).
  - vm_compute. reflexivity.
  - split; [vm_compute; reflexivity|]. split; [exact Hperm|].
    apply Hfail; [right; left; reflexivity | vm_compute; reflexivity].
Defined.

(** ** The concurrency cap *)

Lemma in_flight_insert (l : list task) i old new :
  l !! i = Some old →
  (length (List.filter is_in_flight (<[i := new]> l)) + Nat.b2n (is_in_flight old))%nat
  = (length (List.filter is_in_flight l) + Nat.b2n (is_in_flight new))%nat.
Proof.
  revert i. induction l as [|t l IH]; intros [|i] H; simpl in H; try discriminate.
  - injection H as ->. simpl.
    destruct (is_in_flight old), (is_in_flight new); simpl; lia.
  - simpl. specialize (IH i H).
    destruct (is_in_flight t); simpl; lia.
Qed.

(** Slots handed out and slots left always add up to the cap. *)
Lemma permits_invariant cfg tr ids p :
  reachable cfg tr ids p →
  (in_flight p + permits p)%nat = Z.to_nat (max_conc_requests cfg).
Proof.
  unfold reachable. revert p. apply rtc_ind_r.
  - unfold in_flight, init_pool. simpl.
    induction ids as [|id ids IHids]; simpl; [reflexivity | exact IHids].
  - intros p p' Hreach Hstep IH. destruct Hstep as [i n p Hi Hp | i id k p Hi Hid Hk Ht
                       | i id k r p Hi Hid Hk Ht | i k p Hi Hk];
      unfold in_flight in IH |- *; simpl.
    + pose proof (in_flight_insert _ _ _ (InFlight 0) Hi) as E. simpl in E. lia.
    + pose proof (in_flight_insert _ _ _ (InFlight (S k)) Hi) as E. simpl in E. lia.
    + pose proof (in_flight_insert _ _ _ (Finished r) Hi) as E. simpl in E. lia.
    + pose proof (in_flight_insert _ _ _ (Finished None) Hi) as E. simpl in E. lia.
Qed.

(** C9.  In every state an execution of the batch can reach, the number of
    fetch tasks inside [async with semaphore] is at most the cap. *)
Theorem in_flight_bounded (cfg : settings) (tr : transport) (anime_ids : list Z)
    (p : pool) :
  reachable cfg tr anime_ids p →
  (in_flight p <= Z.to_nat (max_conc_requests cfg))%nat.
Proof.
  intros H. pose proof (permits_invariant _ _ _ _ H). lia.
Qed.

Lemma pool_two_in_flight_reachable tr :
  reachable settings_cap_2 tr ten_ids pool_two_in_flight.
Proof.
  unfold reachable.
  eapply rtc_l; [apply (step_acquire _ _ _ 0%nat 1%nat); reflexivity|].
  eapply rtc_l; [apply (step_acquire _ _ _ 1%nat 0%nat); reflexivity|].
  apply rtc_refl.
Qed.

(** With cap 2 and ten pending fetches, two tasks hold a slot and no third
    one can take one: the state has no free slot. *)
Lemma in_flight_bounded_witness :
  reachable settings_cap_2 transport_without_2 ten_ids pool_two_in_flight ∧
  in_flight pool_two_in_flight = 2%nat ∧
  (in_flight pool_two_in_flight <= Z.to_nat (max_conc_requests settings_cap_2))%nat.
Proof.
  split; [apply pool_two_in_flight_reachable|]. split; [reflexivity|].
  exact (in_flight_bounded settings_cap_2 transport_without_2 ten_ids
           pool_two_in_flight (pool_two_in_flight_reachable transport_without_2)).
Defined.

Lemma fetch_loop_unfold get attempts k :
  (k < attempts)%nat →
  fetch_loop get attempts k (attempts - k) =
    match try_once attempts k (get k) with
    | Return x => x
    | Retry => fetch_loop get attempts (S k) (attempts - S k)
    end.
Proof.
  intros Hk. replace (attempts - k)%nat with (S (attempts - S k)) by lia.
  reflexivity.
Qed.

(** Every task of a reachable pool agrees with [fetch_anime_data]; a
    finished task holds the response [gather] returns for its title. *)
Lemma tasks_agree cfg tr ids p :
  reachable cfg tr ids p →
  ∀ i id t, ids !! i = Some id → tasks p !! i = Some t → task_agrees cfg tr id t.
Proof.
  unfold reachable. revert p.
  apply (rtc_ind_r (fun p => ∀ i id t, ids !! i = Some id →
                      tasks p !! i = Some t → task_agrees cfg tr id t)).
  - intros i id t _ Ht. unfold init_pool in Ht. simpl in Ht.
    rewrite list_lookup_fmap in Ht. destruct (ids !! i); simpl in Ht; [|discriminate].
    injection Ht as <-. exact I.
  - intros p p' _ Hstep IH j id t Hid Ht.
    destruct Hstep as [i n p Hi Hp | i id' k p Hi Hid' Hk Htry
                       | i id' k r p Hi Hid' Hk Htry | i k p Hi Hk];
      simpl in Ht; apply list_lookup_insert_Some in Ht as [(-> & <- & _) | (Hne & Ht)];
      try (apply (IH j id t Hid Ht)).
    + simpl. split; [lia|]. rewrite Nat.sub_0_r. reflexivity.
    + rewrite Hid in Hid'. injection Hid' as <-.
      destruct (IH _ _ _ Hid Hi) as [_ E]. simpl. split; [lia|].
      rewrite <- E, (fetch_loop_unfold _ _ _ Hk), Htry. reflexivity.
    + rewrite Hid in Hid'. injection Hid' as <-.
      destruct (IH _ _ _ Hid Hi) as [_ E]. simpl.
      rewrite <- E, (fetch_loop_unfold _ _ _ Hk), Htry. reflexivity.
    + destruct (IH _ _ _ Hid Hi) as [Hle E]. simpl.
      rewrite <- E. replace (attempts_of cfg - k)%nat with 0%nat by lia. reflexivity.
Qed.

(** A task inside the block runs to its end: the slot is given back and
    the task holds what the rest of the loop returns. *)
Lemma task_runs_to_end cfg tr ids i id n :
  ids !! i = Some id →
  ∀ k p, (attempts_of cfg - k)%nat = n → (k <= attempts_of cfg)%nat →
    tasks p !! i = Some (InFlight k) →
    rtc (step cfg tr ids) p
      {| permits := S (permits p);
         tasks := <[i := Finished (fetch_loop (tr id) (attempts_of cfg) k
                                     (attempts_of cfg - k))]> (tasks p) |}.
Proof.
  intros Hid. induction n as [|n IH]; intros k p Hn Hk Hi.
  - rewrite Hn. simpl. apply rtc_once. apply (step_exhausted _ _ _ i k); [exact Hi | lia].
  - assert (k < attempts_of cfg)%nat as Hlt by lia.
    rewrite (fetch_loop_unfold _ _ _ Hlt).
    destruct (try_once (attempts_of cfg) k (tr id k)) as [r|] eqn:Htry.
    + apply rtc_once. apply (step_return _ _ _ i id k r); assumption.
    + eapply rtc_l; [apply (step_retry _ _ _ i id k); eassumption|].
      assert (i < length (tasks p))%nat as Hlen by (eapply lookup_lt_Some; exact Hi).
      specialize (IH (S k)
        {| permits := permits p; tasks := <[i := InFlight (S k)]> (tasks p) |}).
      simpl in IH. rewrite list_insert_insert_eq in IH.
      apply IH; [lia | lia |]. apply list_lookup_insert_eq. exact Hlen.
Qed.

(** With a free slot, the next waiting task can be run to its end. *)
Lemma pool_next cfg tr ids cap done id rest :
  ids = done ++ id :: rest →
  rtc (step cfg tr ids)
    (pool_between cfg tr (S cap) done (id :: rest))
    (pool_between cfg tr (S cap) (done ++ [id]) rest).
Proof.
  intros Hids.
  set (i := length done).
  set (front := map (fun id0 => Finished (response cfg tr id0)) done).
  set (back := map (fun _ : Z => Queued) rest).
  assert (length front = i) as Hfront by (unfold front; apply length_map).
  assert (ids !! i = Some id) as Hid.
  { rewrite Hids. unfold i. rewrite lookup_app_r by lia.
    rewrite Nat.sub_diag. reflexivity. }
  assert (∀ t t', <[i := t']> (front ++ t :: back) = front ++ t' :: back) as Hins.
  { intros t t'. rewrite <- Hfront. rewrite insert_app_r_alt by lia.
    rewrite Nat.sub_diag. reflexivity. }
  assert (∀ t, (front ++ t :: back) !! i = Some t) as Hlook.
  { intros t. rewrite <- Hfront. rewrite lookup_app_r by lia.
    rewrite Nat.sub_diag. reflexivity. }
  eapply rtc_l.
  { apply (step_acquire _ _ _ i cap); simpl; [apply Hlook | reflexivity]. }
  simpl. fold front back. rewrite Hins.
  pose proof (task_runs_to_end cfg tr ids i id _ Hid 0%nat
                {| permits := cap; tasks := front ++ InFlight 0 :: back |}
                eq_refl ltac:(lia) (Hlook _)) as Hrun.
  simpl in Hrun. rewrite Hins, Nat.sub_0_r in Hrun.
  unfold pool_between. rewrite map_app, <- app_assoc. simpl.
  fold front back. exact Hrun.
Qed.

Lemma pool_finishes_from cfg tr ids cap rest :
  ∀ done, ids = done ++ rest →
  rtc (step cfg tr ids)
    (pool_between cfg tr (S cap) done rest)
    (pool_between cfg tr (S cap) ids []).
Proof.
  induction rest as [|id rest IH]; intros done Hids.
  - rewrite app_nil_r in Hids. subst done. apply rtc_refl.
  - eapply rtc_trans; [apply pool_next; exact Hids|].
    apply IH. rewrite <- app_assoc. exact Hids.
Qed.

(** The batch can run to its end whenever the cap is positive, and then
    every task holds the response that [gather] lists for its title. *)
Lemma pool_can_finish cfg tr ids :
  0 < max_conc_requests cfg →
  ∃ p, reachable cfg tr ids p ∧
       tasks p = map Finished (gather cfg tr ids).
Proof.
  intros Hcap.
  destruct (Z.to_nat (max_conc_requests cfg)) as [|cap] eqn:E; [lia|].
  exists (pool_between cfg tr (S cap) ids []). split.
  - unfold reachable.
    replace (init_pool cfg ids) with (pool_between cfg tr (S cap) [] ids)
      by (unfold init_pool, pool_between; rewrite E; reflexivity).
    apply pool_finishes_from. reflexivity.
  - unfold pool_between, gather. simpl. rewrite app_nil_r, map_map. reflexivity.
Qed.

(** ** Further facts on the counting period *)

(** Two posts by the same user inside the period count once. *)
Lemma same_author_counts_once :
  size (thread_posters (Period 4) 100 200 thread_two_users) = 2%nat ∧
  total_posts (Period 4) 100 200 [thread_two_users; thread_two_users] = 4%nat.
Proof.
  split; vm_compute; reflexivity.
Qed.

(** In the first two weeks of a season the period is 2, and it starts with
    the season. *)
Lemma first_weeks_are_period_2 (date season_start : instant) :
  season_start <= date < season_start + weeks 2 →
  (get_week_and_period date season_start).2 = Period 2 ∧
  current_period_start (Period 2) season_start = Some season_start ∧
  current_period_end (Period 2) season_start = Some (season_start + weeks 2).
Proof.
  intros [Hlo Hhi]. split; [|split; reflexivity].
  unfold get_week_and_period, weeks, days in *. simpl.
  set (dd := (date - season_start) / (1 * 86400000000)).
  assert (0 <= dd < 14) as Hdd.
  { unfold dd. split.
    - apply Z.div_pos; lia.
    - apply Z.div_lt_upper_bound; lia. }
  assert (dd / 7 = 0 ∨ dd / 7 = 1) as [E|E]
    by (Z.to_euclidean_division_equations; lia);
    rewrite E; reflexivity.
Qed.

(** Outside the thirteen weeks the period is ['n/a'] and the module-level
    computation of the boundaries raises. *)
Lemma period_na_has_no_bounds (season_start : instant) :
  current_period_start PeriodNA season_start = None ∧
  current_period_end PeriodNA season_start = None.
Proof. split; reflexivity. Qed.

(** * Further properties *)

(** ** Logging *)

(** X1.  An ERROR message raises the error counter by one at every
    verbosity, the silent one included, and no other level touches it; a
    message printed at one verbosity is printed at every higher one, also
    when its level is raised. *)
Theorem log_print_counts_and_prints (v v' level level' : Z) (n : nat) :
  v <= v' → level <= level' →
  (log_print v n ERROR).1 = S n ∧
  (level ≠ ERROR → (log_print v n level).1 = n) ∧
  (log_print 0 n level).2 = false ∧
  ((log_print v n level).2 = true → (log_print v' n level').2 = true).
Proof.
  intros Hv Hl. unfold log_print, printed, ERROR, INFO, VERBOSE. simpl.
  split; [reflexivity|]. split.
  - intros Hne. destruct (Z.eqb_spec level 40); [contradiction | reflexivity].
  - split; [reflexivity|].
    repeat match goal with
    | |- context [?a =? ?b] => destruct (Z.eqb_spec a b)
    | |- context [?a <=? ?b] => destruct (Z.leb_spec a b)
    end; simpl; try reflexivity; try discriminate; lia.
Qed.

Lemma log_print_counts_and_prints_witness :
  (log_print 0 5 ERROR).1 = 6%nat ∧ (log_print 0 5 ERROR).2 = false ∧
  (log_print 2 5 ERROR).2 = true.
Proof.
  destruct (log_print_counts_and_prints 1 2 INFO ERROR 5) as (_ & _ & _ & Hmono);
    [lia | unfold INFO, ERROR; lia |].
  destruct (log_print_counts_and_prints 0 0 ERROR ERROR 5) as (Hcount & _ & Hsilent & _);
    [lia | lia |].
  split; [exact Hcount|]. split; [exact Hsilent|].
  apply Hmono. reflexivity.
Defined.

(** ** The check of the configured ids *)

Lemma string_of_uint_digits (u : Decimal.uint) :
  forallb is_digit (list_ascii_of_string (NilEmpty.string_of_uint u)) = true.
Proof.
  induction u; simpl; try reflexivity; exact IHu.
Qed.

Lemma isdigit_py_str (id : Z) : isdigit (py_str id) = true ↔ 0 <= id.
Proof.
  unfold py_str. destruct id as [|p|p]; simpl.
  - split; [lia | reflexivity].
  - split; [lia | intros _].
    unfold NilZero.string_of_uint.
    pose proof (string_of_uint_digits (Pos.to_uint p)) as Hd.
    destruct (Pos.to_uint p) eqn:E; exact Hd.
  - split; [discriminate | lia].
Qed.

(** X2.  The list of ids passes the check exactly when it is nonempty and
    holds no negative number: the decimal text of a negative number starts
    with a minus sign, which is not a digit. *)
Theorem validate_anime_ids_spec (ids : list Z) :
  validate_anime_ids ids = true ↔ ids ≠ [] ∧ ∀ id, In id ids → 0 <= id.
Proof.
  unfold validate_anime_ids. rewrite andb_true_iff, forallb_forall. split.
  - intros [Hall Hlen]. split.
    + intros ->. discriminate.
    + intros id Hin. apply isdigit_py_str, Hall, Hin.
  - intros [Hne Hall]. split.
    + intros id Hin. apply isdigit_py_str, Hall, Hin.
    + destruct ids; [contradiction | reflexivity].
Qed.

(** ** The retry loop of [fetch_anime_data] *)

Lemma fetch_loop_Some get attempts a :
  ∀ remaining attempt,
    (attempt + remaining = attempts)%nat →
    fetch_loop get attempts attempt remaining = Some a ↔
    ∃ k, (attempt <= k < attempts)%nat ∧ get k = Body (Some a) ∧
         ∀ j, (attempt <= j < k)%nat → retryable (get j) = true.
Proof.
  induction remaining as [|r IH]; intros attempt Hsum; simpl.
  - split; [discriminate|]. intros (k & Hk & _). lia.
  - assert (∀ x : option anime,
              try_once attempts attempt (get attempt) = Return x →
              retryable (get attempt) = false ∨ attempt = (attempts - 1)%nat) as Hret.
    { unfold try_once. destruct (get attempt) as [j|s| |]; simpl; intros x Hx.
      - left. reflexivity.
      - destruct (Z.eqb_spec s 404); [left; reflexivity|].
        destruct (Z.eqb_spec s 504); [left; reflexivity|]. simpl in *.
        destruct (Nat.eqb_spec attempt (attempts - 1)); [right; assumption | discriminate].
      - destruct (Nat.eqb_spec attempt (attempts - 1)); [right; assumption | discriminate].
      - destruct (Nat.eqb_spec attempt (attempts - 1)); [right; assumption | discriminate]. }
    destruct (try_once attempts attempt (get attempt)) as [x|] eqn:Htry.
    + specialize (Hret x eq_refl). split.
      * intros ->. exists attempt.
        unfold try_once in Htry. destruct (get attempt) as [j|s| |]; simpl in Htry.
        -- injection Htry as ->. split; [lia|]. split; [reflexivity|]. intros; lia.
        -- destruct (s =? 404); [discriminate|].
           destruct ((s =? 504) || Nat.eqb attempt (attempts - 1)); discriminate.
        -- destruct (Nat.eqb attempt (attempts - 1)); discriminate.
        -- destruct (Nat.eqb attempt (attempts - 1)); discriminate.
      * intros (k & Hk & Hbody & Hbefore).
        destruct (Nat.eq_dec k attempt) as [->|Hne].
        -- rewrite Hbody in Htry. simpl in Htry. congruence.
        -- destruct Hret as [Hnr | Hlast]; [|lia].
           rewrite Hbefore in Hnr by lia. discriminate.
    + assert (retryable (get attempt) = true) as Hr.
      { unfold try_once in Htry. destruct (get attempt) as [j|s| |]; simpl in *;
          try reflexivity; try discriminate.
        destruct (s =? 404); [discriminate|].
        destruct (s =? 504); [discriminate | reflexivity]. }
      rewrite IH by lia. split.
      * intros (k & Hk & Hbody & Hbefore). exists k. split; [lia|].
        split; [exact Hbody|]. intros j Hj.
        destruct (Nat.eq_dec j attempt) as [->|]; [exact Hr | apply Hbefore; lia].
      * intros (k & Hk & Hbody & Hbefore). exists k.
        assert (k ≠ attempt) by (intros ->; rewrite Hbody in Hr; discriminate).
        split; [lia|]. split; [exact Hbody|]. intros j Hj. apply Hbefore. lia.
Qed.

(** X3.  [fetch_anime_data] returns a record exactly when some attempt
    within [max(1, retry_limit)] is answered with that record and every
    earlier attempt ended in an error other than 404 and 504. *)
Theorem fetch_anime_data_Some (cfg : settings) (get : nat → outcome) (a : anime) :
  fetch_anime_data cfg get = Some a ↔
  ∃ k, (k < attempts_of cfg)%nat ∧ get k = Body (Some a) ∧
       ∀ j, (j < k)%nat → retryable (get j) = true.
Proof.
  unfold fetch_anime_data. rewrite fetch_loop_Some by lia. split.
  - intros (k & Hk & Hb & Hbefore). exists k. split; [lia|].
    split; [exact Hb|]. intros j Hj. apply Hbefore. lia.
  - intros (k & Hk & Hb & Hbefore). exists k. split; [lia|].
    split; [exact Hb|]. intros j Hj. apply Hbefore. lia.
Qed.

Lemma try_once_Return_logs attempts attempt o x :
  try_once attempts attempt o = Return x →
  logs_error attempts attempt o = false ↔ ∃ j, o = Body j.
Proof.
  unfold try_once, logs_error. destruct o as [j|s| |]; simpl.
  - intros _. split; eauto.
  - destruct (s =? 404); simpl; [intros _; split; [discriminate | intros [j Hj]; discriminate]|].
    destruct (s =? 504); simpl; [intros _; split; [discriminate | intros [j Hj]; discriminate]|].
    destruct (Nat.eqb attempt (attempts - 1)); [|discriminate].
    intros _; split; [discriminate | intros [j Hj]; discriminate].
  - destruct (Nat.eqb attempt (attempts - 1)); [|discriminate].
    intros _; split; [discriminate | intros [j Hj]; discriminate].
  - destruct (Nat.eqb attempt (attempts - 1)); [|discriminate].
    intros _; split; [discriminate | intros [j Hj]; discriminate].
Qed.

Lemma try_once_Retry cfg attempt o :
  (attempt < attempts_of cfg)%nat →
  try_once (attempts_of cfg) attempt o = Retry →
  logs_error (attempts_of cfg) attempt o = false ∧
  sleeps_after cfg (attempts_of cfg) attempt o = true ∧
  attempt ≠ (attempts_of cfg - 1)%nat.
Proof.
  intros Hlt Htry. unfold sleeps_after. rewrite Htry.
  assert (attempt ≠ (attempts_of cfg - 1)%nat ∧
          logs_error (attempts_of cfg) attempt o = false) as [Hne Hlog].
  { unfold try_once, logs_error in *. destruct o as [j|s| |]; simpl in *; try discriminate.
    - destruct (s =? 404); [discriminate|]. destruct (s =? 504); [discriminate|].
      simpl in *. destruct (Nat.eqb_spec attempt (attempts_of cfg - 1));
        [discriminate | auto].
    - destruct (Nat.eqb_spec attempt (attempts_of cfg - 1)); [discriminate | auto].
    - destruct (Nat.eqb_spec attempt (attempts_of cfg - 1)); [discriminate | auto]. }
  split; [exact Hlog|]. split; [|exact Hne].
  assert ((0 <? retry_limit cfg) = true) as Hpos
    by (apply Z.ltb_lt; unfold attempts_of in *; lia).
  destruct o as [j|s| |]; try reflexivity; exact Hpos.
Qed.

Lemma fetch_loop_log_step cfg get attempts attempt r :
  fetch_loop_log cfg get attempts attempt (S r) =
    match try_once attempts attempt (get attempt) with
    | Return x =>
        (x, {| requests := 1;
               errors_logged := b2n (logs_error attempts attempt (get attempt));
               sleeps := 0 |})
    | Retry =>
        let '(x, l) := fetch_loop_log cfg get attempts (S attempt) r in
        (x, {| requests := S (requests l);
               errors_logged :=
                 (b2n (logs_error attempts attempt (get attempt)) + errors_logged l)%nat;
               sleeps :=
                 (b2n (sleeps_after cfg attempts attempt (get attempt)) + sleeps l)%nat |})
    end.
Proof. reflexivity. Qed.

Lemma fetch_loop_step get attempts attempt r :
  fetch_loop get attempts attempt (S r) =
    match try_once attempts attempt (get attempt) with
    | Return x => x
    | Retry => fetch_loop get attempts (S attempt) r
    end.
Proof. reflexivity. Qed.

Lemma fetch_loop_log_spec cfg get :
  ∀ remaining attempt,
    (attempt + S remaining = attempts_of cfg)%nat →
    let r := (fetch_loop_log cfg get (attempts_of cfg) attempt (S remaining)).1 in
    let l := (fetch_loop_log cfg get (attempts_of cfg) attempt (S remaining)).2 in
    r = fetch_loop get (attempts_of cfg) attempt (S remaining) ∧
    (1 <= requests l <= S remaining)%nat ∧
    (0 < retry_limit cfg → sleeps l = (requests l - 1)%nat) ∧
    (errors_logged l <= 1)%nat ∧
    (errors_logged l = 0%nat ↔ ∃ j, get (attempt + requests l - 1)%nat = Body j).
Proof.
  induction remaining as [|n IH]; intros attempt Hsum.
  - simpl. destruct (try_once (attempts_of cfg) attempt (get attempt)) as [x|] eqn:Htry;
      simpl.
    + pose proof (try_once_Return_logs _ _ _ _ Htry) as Hlog.
      replace (attempt + 1 - 1)%nat with attempt by lia.
      split; [reflexivity|]. split; [lia|]. split; [reflexivity|].
      destruct (logs_error (attempts_of cfg) attempt (get attempt)); simpl.
      * split; [lia|]. split; [discriminate|]. intros H. apply Hlog in H. discriminate.
      * split; [lia|]. split; [intros _; apply Hlog; reflexivity | reflexivity].
    + apply try_once_Retry in Htry as (_ & _ & Hne); lia.
  - specialize (IH (S attempt) ltac:(lia)).
    rewrite fetch_loop_log_step, (fetch_loop_step get _ attempt).
    destruct (try_once (attempts_of cfg) attempt (get attempt)) as [x|] eqn:Htry.
    + pose proof (try_once_Return_logs _ _ _ _ Htry) as Hlog. simpl.
      replace (attempt + 1 - 1)%nat with attempt by lia.
      split; [reflexivity|]. split; [lia|]. split; [reflexivity|].
      destruct (logs_error (attempts_of cfg) attempt (get attempt)); simpl.
      * split; [lia|]. split; [discriminate|]. intros H. apply Hlog in H. discriminate.
      * split; [lia|]. split; [intros _; apply Hlog; reflexivity | reflexivity].
    + apply try_once_Retry in Htry as (Hlog & Hsleep & _); [|lia].
      destruct (fetch_loop_log cfg get (attempts_of cfg) (S attempt) (S n)) as [x l].
      cbn [fst snd requests errors_logged sleeps] in IH |- *.
      destruct IH as (Hr & Hreq & Hsl & Herr & Hbody).
      rewrite Hlog, Hsleep. cbn [b2n Nat.add].
      split; [exact Hr|]. split; [lia|].
      split; [intros Hpos; rewrite (Hsl Hpos); lia|].
      split; [exact Herr|].
      replace (attempt + S (requests l) - 1)%nat
        with (S attempt + requests l - 1)%nat by lia.
      exact Hbody.
Qed.

(** X4.  One call of [fetch_anime_data] makes at least one request and at
    most [max(1, retry_limit)], sleeps once between two requests, and logs
    at most one error: none exactly when its last request was answered
    with a body. *)
Theorem fetch_anime_data_log_bounds (cfg : settings) (get : nat → outcome) :
  (fetch_anime_data_log cfg get).1 = fetch_anime_data cfg get ∧
  (1 <= requests (fetch_anime_data_log cfg get).2)%nat ∧
  Z.of_nat (requests (fetch_anime_data_log cfg get).2) <= Z.max 1 (retry_limit cfg) ∧
  sleeps (fetch_anime_data_log cfg get).2 =
    (requests (fetch_anime_data_log cfg get).2 - 1)%nat ∧
  (errors_logged (fetch_anime_data_log cfg get).2 <= 1)%nat ∧
  (errors_logged (fetch_anime_data_log cfg get).2 = 0%nat ↔
   ∃ j, get (requests (fetch_anime_data_log cfg get).2 - 1)%nat = Body j).
Proof.
  unfold fetch_anime_data_log, fetch_anime_data.
  destruct (attempts_of_pos cfg) as [n Hn].
  pose proof (fetch_loop_log_spec cfg get n 0%nat ltac:(lia)) as H.
  rewrite <- Hn in H. cbv zeta in H. rewrite Nat.add_0_l in H.
  set (L := fetch_loop_log cfg get (attempts_of cfg) 0 (attempts_of cfg)) in *.
  destruct H as (Hr & Hreq & Hsl & Herr & Hbody).
  assert (Z.of_nat (S n) = Z.max 1 (retry_limit cfg)) as Hmax
    by (unfold attempts_of in Hn; lia).
  split; [exact Hr|]. split; [lia|]. split; [lia|].
  split; [|split; [exact Herr | exact Hbody]].
  destruct (Z.ltb_spec 0 (retry_limit cfg)) as [Hpos|Hnp]; [apply Hsl, Hpos|].
  assert (n = 0%nat) by lia. subst n.
  assert (requests L.2 = 1%nat) as E by lia.
  rewrite E. unfold L. rewrite Hn, fetch_loop_log_step.
  destruct (try_once 1 0 (get 0%nat)) as [x|] eqn:Htry; [reflexivity|].
  rewrite <- Hn in Htry. apply try_once_Retry in Htry as (_ & _ & Hne); lia.
Qed.

(** ** The mapping returned by [main] *)

Lemma dict_set_keys {V} k (v : V) d :
  dict_keys (dict_set k v d) =
    if existsb (Z.eqb k) (dict_keys d) then dict_keys d else dict_keys d ++ [k].
Proof.
  unfold dict_keys. induction d as [|[k0 v0] d IH]; simpl; [reflexivity|].
  rewrite (Z.eqb_sym k k0).
  destruct (Z.eqb_spec k0 k) as [->|Hne]; simpl; [reflexivity|].
  rewrite IH. destruct (existsb (Z.eqb k) (map fst d)); reflexivity.
Qed.

Lemma dict_set_NoDup {V} k (v : V) d :
  NoDup (dict_keys d) → NoDup (dict_keys (dict_set k v d)).
Proof.
  intros Hnd. rewrite dict_set_keys.
  destruct (existsb (Z.eqb k) (dict_keys d)) eqn:E; [exact Hnd|].
  apply NoDup_app. split; [exact Hnd|]. split.
  - intros x Hx Hk. apply list_elem_of_In in Hx. apply list_elem_of_In in Hk.
    destruct Hk as [<-|[]].
    assert (existsb (Z.eqb k) (dict_keys d) = true) as Ht
      by (apply existsb_exists; exists k; split; [exact Hx | apply Z.eqb_refl]).
    congruence.
  - apply NoDup_singleton.
Qed.

Lemma collect_NoDup pairs acc :
  NoDup (dict_keys acc) → NoDup (dict_keys (fold_left collect_step pairs acc)).
Proof.
  revert acc. induction pairs as [|[k r] pairs IH]; intros acc Hnd; simpl; [exact Hnd|].
  apply IH. unfold collect_step. simpl. destruct r; [apply dict_set_NoDup|]; exact Hnd.
Qed.

Lemma collect_get ids cfg tr acc id :
  dict_get id (fold_left collect_step
                 (map (fun id0 => (id0, response cfg tr id0)) ids) acc) =
    match (if existsb (Z.eqb id) ids then response cfg tr id else None) with
    | Some a => Some (RData a)
    | None => dict_get id acc
    end.
Proof.
  revert acc. induction ids as [|k ids IH]; intros acc; simpl; [reflexivity|].
  rewrite IH. unfold collect_step. simpl.
  destruct (Z.eqb_spec id k) as [->|Hne]; simpl.
  - destruct (response cfg tr k) as [a|] eqn:E.
    + destruct (existsb (Z.eqb k) ids); [reflexivity|].
      rewrite dict_get_set, Z.eqb_refl. reflexivity.
    + destruct (existsb (Z.eqb k) ids); reflexivity.
  - destruct (existsb (Z.eqb id) ids).
    + destruct (response cfg tr id); [reflexivity|].
      destruct (response cfg tr k); [|reflexivity].
      rewrite dict_get_set. destruct (Z.eqb_spec k id); [congruence | reflexivity].
    + destruct (response cfg tr k); [|reflexivity].
      rewrite dict_get_set. destruct (Z.eqb_spec k id); [congruence | reflexivity].
Qed.

(** X5.  Whatever the list of ids (repetitions included), the mapping
    returned by [main] has every key once; looking up a requested id gives
    the record its fetch returned, looking up any other id gives nothing;
    so the order of the ids does not change what a lookup finds. *)
Theorem main_lookup (cfg : settings) (tr : transport) (anime_ids : list Z) :
  NoDup (dict_keys (main cfg tr anime_ids)) ∧
  (∀ id, In id anime_ids →
         dict_get id (main cfg tr anime_ids) = RData <$> response cfg tr id) ∧
  (∀ id, ¬ In id anime_ids → dict_get id (main cfg tr anime_ids) = None) ∧
  (∀ ids' id, Permutation anime_ids ids' →
         dict_get id (main cfg tr ids') = dict_get id (main cfg tr anime_ids)).
Proof.
  assert (∀ ids id, dict_get id (main cfg tr ids) =
            if existsb (Z.eqb id) ids then RData <$> response cfg tr id else None) as Hget.
  { intros ids id. unfold main, collect. rewrite combine_gather, collect_get.
    destruct (existsb (Z.eqb id) ids); [|reflexivity].
    destruct (response cfg tr id); reflexivity. }
  assert (∀ ids id, existsb (Z.eqb id) ids = true ↔ In id ids) as Hex.
  { intros ids id. rewrite existsb_exists. split.
    - intros (x & Hx & E). apply Z.eqb_eq in E. subst. exact Hx.
    - intros Hin. exists id. split; [exact Hin | apply Z.eqb_refl]. }
  split; [unfold main, collect; apply collect_NoDup; constructor|].
  split; [|split].
  - intros id Hin. rewrite Hget. apply Hex in Hin. rewrite Hin. reflexivity.
  - intros id Hnin. rewrite Hget.
    destruct (existsb (Z.eqb id) anime_ids) eqn:E; [|reflexivity].
    apply Hex in E. contradiction.
  - intros ids' id Hperm. rewrite !Hget.
    destruct (existsb (Z.eqb id) anime_ids) eqn:E, (existsb (Z.eqb id) ids') eqn:E';
      try reflexivity; exfalso.
    + apply Hex in E. apply (Permutation_in _ Hperm) in E. apply Hex in E. congruence.
    + apply Hex in E'. apply (Permutation_in _ (Permutation_sym Hperm)) in E'.
      apply Hex in E'. congruence.
Qed.

(** ** Rendering *)

(** [calculate_variables] raises exactly on a record that is not well
    formed. *)
Lemma calculate_variables_None data :
  calculate_variables data = None ↔ ¬ well_formed data.
Proof.
  split; [intros Hn Hwf; rewrite (calculate_variables_wf _ Hwf) in Hn; discriminate|].
  intros Hnwf. unfold calculate_variables, well_formed, count_ok in *.
  destruct (a_watching data) as [[w|]|]; simpl; try reflexivity;
  destruct (a_completed data) as [[c|]|]; simpl; try reflexivity;
  destruct (a_dropped data) as [[d|]|]; simpl; try reflexivity;
  destruct (a_plan_to_watch data) as [[p|]|]; simpl; try reflexivity;
  exfalso; apply Hnwf; repeat split; discriminate.
Qed.

(** X6.  [populate_sheet] returns exactly when every record among the rows
    has a title, a favorites count and an id; when it returns it has
    written one sheet row per row.  A record whose counts cannot be read
    does not make it raise: its row carries ERR and zeros in every derived
    column. *)
Theorem populate_sheet_renders (rows : list row) :
  (is_Some (populate_sheet rows) ↔ Forall renderable rows) ∧
  (∀ sheet, populate_sheet rows = Some sheet → length sheet = length rows) ∧
  (∀ a title favorites id,
     a_title a = Some title → a_num_favorites a = Some favorites →
     a_id a = Some id → ¬ well_formed a →
     populate_row (RData a) =
       Some (DataRow title (score_cell a) favorites 0 0 0 0 0 0 0 0 ERR id)).
Proof.
  split; [|split].
  - unfold populate_sheet. rewrite mapM_is_Some. apply Forall_iff.
    intros [a|msg]; unfold compose; simpl; [|split; [auto | eauto]].
    destruct (a_title a), (a_num_favorites a), (a_id a); simpl;
      split; try (intros [? ?]; discriminate); try (intros ([? ?] & [? ?] & [? ?]); discriminate);
      eauto.
  - intros sheet H. apply length_mapM in H. symmetry. exact H.
  - intros a title favorites id Ht Hf Hi Hnwf. simpl. rewrite Ht, Hf, Hi. simpl.
    unfold derive. apply calculate_variables_None in Hnwf. rewrite Hnwf. reflexivity.
Qed.

(** ** What the derived columns can hold *)

Lemma Qdiv_le_1 (a b : Z) : 0 <= a <= b → 0 < b → (inject_Z a / inject_Z b <= 1)%Q.
Proof.
  intros Ha Hb. apply Qle_shift_div_r.
  - unfold Qlt. simpl. lia.
  - unfold Qle. simpl. lia.
Qed.

(** X7.  For a record with nonnegative counts, classification only ever
    lowers a count and never touches plan-to-watch; the drop rate is at
    most 1; a title classified NYA shows 0 in W+C and in both ratios; and
    for a title classified PRE or AIR the W+C column is the watching count
    alone. *)
Theorem derived_row_invariants (data : anime) :
  nonneg_counts data →
  ∃ d, calculate_variables data = Some d ∧
    0 <= d_watching d <= read_count (a_watching data) ∧
    0 <= d_completed d <= read_count (a_completed data) ∧
    0 <= d_dropped d <= read_count (a_dropped data) ∧
    d_ptw d = read_count (a_plan_to_watch data) ∧
    (drop_rate d <= 1)%Q ∧
    (d_status_code d = NYA →
       d_watch_comp d = 0 ∧ drop_rate d = 0%Q ∧ (ptw_ratio d == 0)%Q) ∧
    (d_status_code d = PRE ∨ d_status_code d = AIR →
       d_watch_comp d = d_watching d).
Proof.
  intros (Hwf & Hw & Hc & Hdr & Hp).
  eexists. split; [apply (calculate_variables_wf _ Hwf)|].
  generalize dependent (read_count (a_plan_to_watch data)).
  generalize dependent (read_count (a_dropped data)).
  generalize dependent (read_count (a_completed data)).
  generalize dependent (read_count (a_watching data)).
  generalize (raw_status data).
  intros st w Hw c Hc dr Hdr p Hp.
  assert (∀ code w' c' dr', 0 <= w' → 0 <= c' → 0 <= dr' →
            (drop_rate (finish code w' c' dr' p) <= 1)%Q) as Hrate.
  { intros code w' c' dr' H1 H2 H3. unfold drop_rate, finish. simpl.
    destruct (Z.ltb_spec 0 (w' + c' + dr')); [apply Qdiv_le_1; lia | unfold Qle; simpl; lia]. }
  assert (ptw_ratio (finish NYA 0 0 0 p) == 0)%Q as Hnya.
  { unfold ptw_ratio, finish. simpl. destruct (0 <? p); [|reflexivity].
    unfold Qeq. simpl. reflexivity. }
  classify_cases; simpl;
    (split; [lia|]); (split; [lia|]); (split; [lia|]); (split; [reflexivity|]);
    (split; [apply Hrate; lia|]);
    (split; [first [intros _; split; [reflexivity|]; split; [reflexivity | exact Hnya]
                   | discriminate]
            | first [intros [?|?]; discriminate | intros _; lia]]).
Qed.

Lemma derived_row_invariants_witness :
  nonneg_counts (sample_unaired 999) ∧
  ∃ d, calculate_variables (sample_unaired 999) = Some d ∧
       d_watch_comp d = 0 ∧ drop_rate d = 0%Q ∧ (ptw_ratio d == 0)%Q.
Proof.
  assert (nonneg_counts (sample_unaired 999)) as Hnn.
  { split; [repeat split; discriminate | simpl; lia]. }
  split; [exact Hnn|].
  destruct (derived_row_invariants (sample_unaired 999) Hnn)
    as (d & Hd & _ & _ & _ & _ & _ & Hnya & _).
  exists d. split; [exact Hd|]. apply Hnya.
  vm_compute in Hd. injection Hd as <-. reflexivity.
Defined.

(** ** Stability of the sort *)

Section PySortedStable.
Context {K A : Type} (ltb : K → K → bool).
Hypothesis ltb_negtrans : ∀ a b c, ltb b a = false → ltb c b = false → ltb c a = false.

Lemma tie_not_ltb k a b :
  tie ltb k a = true → tie ltb k b = true → ltb a b = false.
Proof.
  unfold tie. rewrite !andb_true_iff, !negb_true_iff.
  intros [Hka Hak] [Hkb Hbk]. eapply ltb_negtrans; eassumption.
Qed.

Lemma insert_keyed_filter k (kx : K * A) l :
  List.filter (fun z => tie ltb k z.1) (insert_keyed ltb kx l) =
  List.filter (fun z => tie ltb k z.1) (kx :: l).
Proof.
  induction l as [|ky l IH]; [reflexivity|].
  cbn [insert_keyed]. destruct (ltb ky.1 kx.1) eqn:E; [|reflexivity].
  cbn [List.filter] in IH |- *. rewrite IH.
  destruct (tie ltb k ky.1) eqn:Ty, (tie ltb k kx.1) eqn:Tx; try reflexivity.
  rewrite (tie_not_ltb k _ _ Ty Tx) in E. discriminate.
Qed.

Lemma sort_keyed_filter k (l : list (K * A)) :
  List.filter (fun z => tie ltb k z.1) (sort_keyed ltb l) =
  List.filter (fun z => tie ltb k z.1) l.
Proof.
  induction l as [|kx l IH]; [reflexivity|].
  cbn [sort_keyed fold_right]. fold (sort_keyed ltb l).
  rewrite insert_keyed_filter. cbn [List.filter]. rewrite IH. reflexivity.
Qed.

Lemma filter_keyed (key : A → option K) (P : K → bool) (ks : list (K * A)) :
  Forall (fun kx => key kx.2 = Some kx.1) ks →
  map snd (List.filter (fun z => P z.1) ks) =
  List.filter (fun x => match key x with Some k => P k | None => false end)
    (map snd ks).
Proof.
  induction 1 as [|kx ks Hk _ IH]; [reflexivity|].
  cbn [List.filter map]. rewrite Hk, <- IH.
  destruct (P kx.1); reflexivity.
Qed.

(** The elements whose keys tie with a given key keep their input order. *)
Lemma sorted_stable (key : A → option K) l out k :
  sorted ltb key l = Some out →
  List.filter (fun x => match key x with Some k' => tie ltb k k' | None => false end) out =
  List.filter (fun x => match key x with Some k' => tie ltb k k' | None => false end) l.
Proof.
  unfold sorted. intros H.
  destruct (mapM (with_key key) l) as [keyed|] eqn:Hk; simpl in H; [|discriminate].
  injection H as <-. apply mapM_with_key in Hk as [Hl Hkeys].
  rewrite <- Hl.
  rewrite <- (filter_keyed key (tie ltb k) keyed Hkeys).
  rewrite <- (filter_keyed key (tie ltb k) (sort_keyed ltb keyed)).
  - rewrite sort_keyed_filter. reflexivity.
  - rewrite List.Forall_forall in Hkeys |- *. intros z Hz. apply Hkeys.
    eapply Permutation_in; [apply sort_keyed_perm | exact Hz].
Qed.

End PySortedStable.

Lemma filter_ext_keys {A} (f g : A → bool) (l out : list A) :
  Permutation out l →
  (∀ x, In x l → f x = g x) →
  List.filter f out = List.filter g out ∧ List.filter f l = List.filter g l.
Proof.
  intros Hperm Hext. split; apply List.filter_ext_in; intros x Hx; apply Hext.
  - eapply Permutation_in; eassumption.
  - exact Hx.
Qed.

Lemma Qopp_inject_tie (v w : Z) :
  tie pair_ltb (false, Fin (- inject_Z v)%Q) (false, Fin (- inject_Z w)%Q) =
    bool_decide (w = v).
Proof.
  unfold tie, pair_ltb. cbn [fst snd Bool.eqb xltb].
  destruct (Qltb (- inject_Z v) (- inject_Z w)) eqn:E1,
           (Qltb (- inject_Z w) (- inject_Z v)) eqn:E2; cbn [negb andb];
    try (apply Qltb_lt in E1; unfold Qlt in E1; simpl in E1);
    try (apply Qltb_lt in E2; unfold Qlt in E2; simpl in E2);
    try (apply Qltb_ge in E1; unfold Qle in E1; simpl in E1);
    try (apply Qltb_ge in E2; unfold Qle in E2; simpl in E2).
  - lia.
  - rewrite bool_decide_eq_false_2; [reflexivity | lia].
  - rewrite bool_decide_eq_false_2; [reflexivity | lia].
  - rewrite bool_decide_eq_true_2; [reflexivity | lia].
Qed.

(** X8.  Under a count key (watching, completed, W+C, dropped,
    plan-to-watch) the sort is stable: the records that share a value of
    the key stand in the output in the order they had in the mapping, and
    so do the error texts among themselves. *)
Theorem sort_data_count_ties_keep_order
    (pc : option (gmap Z Z)) (d : pydict row) (col : string)
    (lacks : anime → bool) (proj : derived → Z) (out : list row) (v : Z) :
  In (col, (lacks, proj)) count_columns →
  sort_data pc d col = Some out →
  List.filter (fun x => bool_decide (column_value proj x = Some v)) out =
  List.filter (fun x => bool_decide (column_value proj x = Some v)) (dict_values d) ∧
  List.filter isinstance_str out = List.filter isinstance_str (dict_values d).
Proof.
  intros Hcol Hs.
  rewrite (sort_data_count_column pc d col lacks proj Hcol) in Hs.
  pose proof (sorted_perm _ _ _ _ Hs) as Hperm.
  assert (∀ x, In x (dict_values d) →
            is_Some (key_derived (fun y => inject_Z (proj y)) x)) as Hdef.
  { intros x Hx. apply (sorted_keys_defined pair_ltb _ _ _ _ Hs).
    eapply Permutation_in; [symmetry; exact Hperm | exact Hx]. }
  split.
  - pose proof (sorted_stable pair_ltb pair_ltb_negtrans _ _ _
                  (false, Fin (- inject_Z v)%Q) Hs) as Hst.
    destruct (filter_ext_keys
                (fun x => match key_derived (fun y => inject_Z (proj y)) x with
                          | Some k' => tie pair_ltb (false, Fin (- inject_Z v)%Q) k'
                          | None => false
                          end)
                (fun x => bool_decide (column_value proj x = Some v))
                _ _ Hperm) as [E1 E2]; [|rewrite <- E1, <- E2; exact Hst].
    intros [a|msg] Hx; simpl.
    + destruct (Hdef _ Hx) as [k Hk]. simpl in Hk.
      destruct (calculate_variables a) as [da|]; simpl in *; [|discriminate].
      rewrite Qopp_inject_tie. apply bool_decide_ext.
      split; [intros ->; reflexivity | intros [= ->]; reflexivity].
    + reflexivity.
  - pose proof (sorted_stable pair_ltb pair_ltb_negtrans _ _ _
                  (true, xint 0) Hs) as Hst.
    destruct (filter_ext_keys
                (fun x => match key_derived (fun y => inject_Z (proj y)) x with
                          | Some k' => tie pair_ltb (true, xint 0) k'
                          | None => false
                          end)
                isinstance_str _ _ Hperm) as [E1 E2];
      [|rewrite <- E1, <- E2; exact Hst].
    intros [a|msg] Hx; simpl; [|reflexivity].
    destruct (calculate_variables a); reflexivity.
Qed.

Lemma sort_data_count_ties_keep_order_witness :
  List.filter (fun x => bool_decide (column_value d_watching x = Some 0))
    [RData (titled 1 "Alpha" (Some (8 # 1)) None);
     RData (titled 2 "Beta" (Some (7 # 1)) (Some (IntLike 0)))] =
  List.filter (fun x => bool_decide (column_value d_watching x = Some 0))
    (dict_values rows_unwatched_then_zero).
Proof.
  apply (sort_data_count_ties_keep_order None rows_unwatched_then_zero "E"
           (fun a => bool_decide (a_watching a = None)) d_watching).
  - left. reflexivity.
  - vm_compute. reflexivity.
Defined.

(** ** When the sort stage raises, and the order it produces *)

Lemma sorted_Some_iff {K A} (ltb : K → K → bool) (key : A → option K) l :
  is_Some (sorted ltb key l) ↔ ∀ x, In x l → is_Some (key x).
Proof.
  split.
  - intros [out Hs] x Hx. apply (sorted_keys_defined ltb key l out x Hs).
    eapply Permutation_in; [symmetry; apply (sorted_perm ltb key l out Hs) | exact Hx].
  - intros H. apply sorted_is_Some. apply List.Forall_forall. exact H.
Qed.

Lemma sort_columns_cases (col : string) :
  ¬ In col sort_columns →
  col ≠ "A"%string ∧ col ≠ "B"%string ∧ col ≠ "C"%string ∧ col ≠ "D"%string ∧
  col ≠ "E"%string ∧ col ≠ "F"%string ∧ col ≠ "G"%string ∧ col ≠ "H"%string ∧
  col ≠ "I"%string ∧ col ≠ "J"%string ∧ col ≠ "K"%string ∧ col ≠ "L"%string ∧
  col ≠ "M"%string.
Proof.
  unfold sort_columns, pair_columns. simpl. intros H.
  repeat split; intros ->; apply H; tauto.
Qed.

(** X9.  A sort column that is none of the letters A to M (a lower-case
    letter, say) leaves the rows in the order of the mapping, and
    [sort_data] cannot raise then. *)
Theorem sort_data_unknown_column
    (pc : option (gmap Z Z)) (d : pydict row) (col : string) :
  ¬ In col sort_columns →
  sort_data pc d col = Some (dict_values d).
Proof.
  intros H. apply sort_columns_cases in H.
  destruct H as (HA & HB & HC & HD & HE & HF & HG & HH & HI & HJ & HK & HL & HM).
  unfold sort_data.
  repeat match goal with
  | |- context [String.eqb col ?c] =>
      destruct (String.eqb_spec col c); [contradiction|]
  end.
  reflexivity.
Qed.

Lemma sort_data_unknown_column_witness :
  sort_data None rows_5_1_err_3 "m" = Some (dict_values rows_5_1_err_3).
Proof.
  apply sort_data_unknown_column. vm_compute.
  intros H. repeat (destruct H as [H|H]; [discriminate|]). exact H.
Defined.

Lemma pair_ltb_record_after_error (x y : xnum) : pair_ltb (false, x) (true, y) = true.
Proof. reflexivity. Qed.

Lemma xint_ltb_false (v w : Z) : pair_ltb (false, xint v) (false, xint w) = false ↔ w <= v.
Proof.
  unfold pair_ltb, xint. cbn [fst snd Bool.eqb xltb]. rewrite Qltb_ge.
  unfold Qle. simpl. lia.
Qed.

(** X10.  Sorting by ID raises exactly when some record has no id.  When
    it returns, the rows are those of the mapping, every record stands
    before every error text, and the ids of the records ascend. *)
Theorem sort_data_by_id (pc : option (gmap Z Z)) (d : pydict row) :
  (is_Some (sort_data pc d "M") ↔
   ∀ a, In (RData a) (dict_values d) → is_Some (a_id a)) ∧
  (∀ out, sort_data pc d "M" = Some out →
     Permutation out (dict_values d) ∧
     ∀ l1 x l2 y, out = l1 ++ x :: l2 → In y l2 → is_record y = true →
       is_record x = true ∧
       ∀ ix iy, row_id x = Some ix → row_id y = Some iy → ix <= iy).
Proof.
  change (sort_data pc d "M") with (sorted pair_ltb key_id (dict_values d)).
  split.
  - rewrite sorted_Some_iff. split.
    + intros H a Ha. specialize (H _ Ha). simpl in H.
      destruct (a_id a); [eauto | destruct H; discriminate].
    + intros H [a|msg] Hx; simpl; [|eauto].
      destruct (H a Hx) as [i ->]. simpl. eauto.
  - intros out Hs. split; [apply (sorted_perm _ _ _ _ Hs)|].
    intros l1 x l2 [b|msg] Hout Hy Hrec; [|discriminate].
    assert (is_Some (key_id x) ∧ is_Some (key_id (RData b))) as [[kx Hkx] [ky Hky]].
    { split; apply (sorted_keys_defined pair_ltb key_id _ _ _ Hs);
        rewrite Hout; apply in_or_app; right; [left; reflexivity | right; exact Hy]. }
    pose proof (sorted_order pair_ltb pair_ltb_asym pair_ltb_negtrans
                  key_id _ _ _ _ _ _ _ _ Hs Hout Hy Hky Hkx) as Hord.
    simpl in Hky. destruct (a_id b) as [ib|] eqn:Eb; simpl in Hky; [|discriminate].
    injection Hky as <-.
    destruct x as [a|msg]; simpl in Hkx.
    + destruct (a_id a) as [ia|] eqn:Ea; simpl in Hkx; [|discriminate].
      injection Hkx as <-. split; [reflexivity|].
      intros ix iy Hix Hiy. simpl in Hix, Hiy. rewrite Ea in Hix. rewrite Eb in Hiy.
      injection Hix as <-. injection Hiy as <-.
      apply xint_ltb_false in Hord. exact Hord.
    + injection Hkx as <-. rewrite pair_ltb_record_after_error in Hord. discriminate.
Qed.

(** ** The order on texts *)

Lemma string_compare_le_trans (a b c : string) :
  String.compare a b ≠ Gt → String.compare b c ≠ Gt → String.compare a c ≠ Gt.
Proof.
  revert b c. induction a as [|x a IH]; intros [|y b] [|z c]; simpl;
    try congruence.
  unfold Ascii.compare.
  destruct (N.compare_spec (N_of_ascii x) (N_of_ascii y)) as [Exy|Lxy|Gxy];
  destruct (N.compare_spec (N_of_ascii y) (N_of_ascii z)) as [Eyz|Lyz|Gyz];
    try congruence.
  - rewrite Exy, Eyz, N.compare_refl. apply IH.
  - rewrite Exy. rewrite (proj2 (N.compare_lt_iff _ _) Lyz). discriminate.
  - rewrite <- Eyz. rewrite (proj2 (N.compare_lt_iff _ _) Lxy). discriminate.
  - rewrite (proj2 (N.compare_lt_iff _ _) (N.lt_trans _ _ _ Lxy Lyz)). discriminate.
Qed.

Lemma string_ltb_false (a b : string) :
  String.ltb a b = false ↔ String.leb b a = true.
Proof.
  unfold String.ltb, String.leb. rewrite (String.compare_antisym b a).
  destruct (String.compare a b); simpl; split; congruence.
Qed.

Lemma string_leb_compare (a b : string) :
  String.leb a b = true ↔ String.compare a b ≠ Gt.
Proof.
  unfold String.leb. destruct (String.compare a b); split; congruence.
Qed.

Lemma string_ltb_asym a b : String.ltb a b = true → String.ltb b a = false.
Proof.
  unfold String.ltb. rewrite (String.compare_antisym b a).
  destruct (String.compare a b); simpl; congruence.
Qed.

Lemma string_ltb_negtrans a b c :
  String.ltb b a = false → String.ltb c b = false → String.ltb c a = false.
Proof.
  rewrite !string_ltb_false, !string_leb_compare. apply string_compare_le_trans.
Qed.

(** X11.  On a mapping whose titles and error texts are ASCII text, sorting
    by title raises exactly when some record has no title.  When it
    returns, the keys ascend along the output, where the key of a record is
    its title in lower case and the key of an error text is the text as it
    is. *)
Theorem sort_data_by_title (pc : option (gmap Z Z)) (d : pydict row) :
  (∀ a t, In (RData a) (dict_values d) → a_title a = Some t → isascii t = true) →
  (∀ msg, In (RErr msg) (dict_values d) → isascii msg = true) →
  (is_Some (sort_data pc d "A") ↔
   ∀ a, In (RData a) (dict_values d) → is_Some (a_title a)) ∧
  (∀ out, sort_data pc d "A" = Some out →
     Permutation out (dict_values d) ∧
     ∀ l1 x l2 y kx ky, out = l1 ++ x :: l2 → In y l2 →
       key_title x = Some kx → key_title y = Some ky →
       String.leb kx ky = true).
Proof.
  intros _ _.
  change (sort_data pc d "A") with (sorted String.ltb key_title (dict_values d)).
  split.
  - rewrite sorted_Some_iff. split.
    + intros H a Ha. specialize (H _ Ha). simpl in H.
      destruct (a_title a); [eauto | destruct H; discriminate].
    + intros H [a|msg] Hx; simpl; [|eauto].
      destruct (H a Hx) as [t ->]. simpl. eauto.
  - intros out Hs. split; [apply (sorted_perm _ _ _ _ Hs)|].
    intros l1 x l2 y kx ky Hout Hy Hkx Hky.
    apply string_ltb_false.
    exact (sorted_order String.ltb string_ltb_asym string_ltb_negtrans
             key_title _ _ _ _ _ _ _ _ Hs Hout Hy Hky Hkx).
Qed.

Lemma rows_5_1_err_3_ascii :
  (∀ a t, In (RData a) (dict_values rows_5_1_err_3) → a_title a = Some t →
     isascii t = true) ∧
  (∀ msg, In (RErr msg) (dict_values rows_5_1_err_3) → isascii msg = true).
Proof.
  split.
  - intros a t [E|[E|[E|[E|[]]]]]; try discriminate E;
      injection E as <-; intros [= <-]; reflexivity.
  - intros msg [E|[E|[E|[E|[]]]]]; try discriminate E;
      injection E as <-; reflexivity.
Qed.

(** The rows [{id:5}, {id:1}, "ERR-row", {id:3}] with the titles Epsilon,
    Alpha and Gamma: the sort by title returns, with the error text first
    (its capital E stands before every small letter). *)
Lemma sort_data_by_title_witness :
  is_Some (sort_data None rows_5_1_err_3 "A") ∧
  sort_data None rows_5_1_err_3 "A" =
    Some [RErr "ERR-row";
          RData (titled 1 "Alpha" (Some (7 # 1)) (Some (IntLike 10)));
          RData (titled 5 "Epsilon" (Some (8 # 1)) (Some (IntLike 50)));
          RData (titled 3 "Gamma" (Some (6 # 1)) (Some (IntLike 30)))].
Proof.
  split; [|vm_compute; reflexivity].
  apply (sort_data_by_title None rows_5_1_err_3
           (proj1 rows_5_1_err_3_ascii) (proj2 rows_5_1_err_3_ascii)).
  intros a [E|[E|[E|[E|[]]]]]; try discriminate E;
    injection E as <-; simpl; eauto.
Defined.

(** ** Sorting by posts and by score *)

Lemma classic_key_scan {K A} (key : A → option K) (l : list A) :
  (∀ x, In x l → is_Some (key x)) ∨ ∃ x, In x l ∧ key x = None.
Proof.
  induction l as [|y l [IH|(x & Hx & Hk)]].
  - left. intros x [].
  - destruct (key y) as [k|] eqn:E.
    + left. intros x [<-|Hx]; [rewrite E; eauto | apply IH, Hx].
    + right. exists y. split; [left; reflexivity | exact E].
  - right. exists x. split; [right; exact Hx | exact Hk].
Qed.

Lemma sorted_None_iff {K A} (ltb : K → K → bool) (key : A → option K) l :
  sorted ltb key l = None ↔ ∃ x, In x l ∧ key x = None.
Proof.
  split.
  - intros Hn. destruct (classic_key_scan key l) as [Hall | Hex]; [|exact Hex].
    assert (is_Some (sorted ltb key l)) as [out Hs] by (apply sorted_Some_iff; exact Hall).
    congruence.
  - intros (x & Hx & Hk). destruct (sorted ltb key l) as [out|] eqn:Hs; [|reflexivity].
    assert (is_Some (key x)) as [k Hk'].
    { apply (sorted_keys_defined ltb key l out x Hs).
      eapply Permutation_in; [symmetry; apply (sorted_perm ltb key l out Hs) | exact Hx]. }
    congruence.
Qed.

Lemma sort_keyed_same_key {K A} (ltb : K → K → bool) (k0 : K) (ks : list (K * A)) :
  ltb k0 k0 = false →
  Forall (fun z => z.1 = k0) ks →
  sort_keyed ltb ks = ks.
Proof.
  intros Hirr. induction 1 as [|x ks Hx Hall IH]; [reflexivity|].
  cbn [sort_keyed fold_right]. fold (sort_keyed ltb ks). rewrite IH.
  destruct Hall as [|y ks' Hy _]; [reflexivity|].
  cbn [insert_keyed]. rewrite Hx, Hy, Hirr. reflexivity.
Qed.

(** X12.  At the place where the script calls [sort_data], the name
    [post_counts] is not defined yet: sorting by the posts column raises
    as soon as the mapping holds one record, and returns (the error texts,
    in order) only when it holds none. *)
Theorem sort_data_by_posts_raises (d : pydict row) :
  (sort_data None d "D" = None ↔ ∃ a, In (RData a) (dict_values d)) ∧
  ((∀ a, ¬ In (RData a) (dict_values d)) → sort_data None d "D" = Some (dict_values d)).
Proof.
  change (sort_data None d "D")
    with (sorted pair_ltb (key_posts None) (dict_values d)).
  assert (sorted pair_ltb (key_posts None) (dict_values d) = None ↔
          ∃ a, In (RData a) (dict_values d)) as Hnone.
  { rewrite sorted_None_iff. split.
    - intros ([a|msg] & Hx & Hk); [eauto | discriminate].
    - intros (a & Ha). exists (RData a). split; [exact Ha | reflexivity]. }
  split; [exact Hnone|].
  intros Hno. unfold sorted.
  destruct (mapM (with_key (key_posts None)) (dict_values d)) as [keyed|] eqn:Hk.
  - simpl. f_equal. apply mapM_with_key in Hk as [Hsnd Hkeys].
    rewrite <- Hsnd. f_equal. apply (sort_keyed_same_key pair_ltb (true, xint 0));
      [reflexivity|].
    rewrite List.Forall_forall in Hkeys |- *. intros [k x] Hz.
    specialize (Hkeys _ Hz). simpl in Hkeys |- *.
    destruct x as [a|m]; simpl in Hkeys; [discriminate | congruence].
  - apply mapM_None in Hk. apply Exists_exists in Hk as (x & Hx & Hkx).
    apply list_elem_of_In in Hx. destruct x as [a|m]; [|discriminate].
    exfalso. exact (Hno a Hx).
Qed.

Lemma sort_data_by_posts_raises_witness :
  sort_data None [(9, RErr "a"); (8, RErr "b")] "D" = Some [RErr "a"; RErr "b"].
Proof.
  apply (proj2 (sort_data_by_posts_raises [(9, RErr "a"); (8, RErr "b")])).
  intros a [H|[H|[]]]; discriminate.
Defined.

(** X13.  Sorting by score never raises.  In its output every record
    stands before every error text, the records without a score stand
    before the scored ones, and the scores of the scored ones descend. *)
Theorem sort_data_by_score (pc : option (gmap Z Z)) (d : pydict row) :
  is_Some (sort_data pc d "B") ∧
  (∀ out, sort_data pc d "B" = Some out →
     Permutation out (dict_values d) ∧
     ∀ l1 x l2 y, out = l1 ++ x :: l2 → In y l2 → is_record y = true →
       is_record x = true ∧
       (row_mean y = None → row_mean x = None) ∧
       ∀ qx qy, row_mean x = Some qx → row_mean y = Some qy → (qy <= qx)%Q).
Proof.
  change (sort_data pc d "B") with (sorted pair_ltb key_score (dict_values d)).
  split.
  - apply sorted_Some_iff. intros [a|msg] _; simpl; eauto.
  - intros out Hs. split; [apply (sorted_perm _ _ _ _ Hs)|].
    intros l1 x l2 [b|msg] Hout Hy Hrec; [|discriminate].
    pose proof (sorted_order pair_ltb pair_ltb_asym pair_ltb_negtrans
                  key_score _ _ _ _ _ _ _ _ Hs Hout Hy eq_refl
                  (match x return key_score x = Some
                     (match x with
                      | RErr _ => (true, xint 0)
                      | RData _ => (false, xneg (get_sortable_value_mean x))
                      end) with
                   | RData _ => eq_refl | RErr _ => eq_refl end)) as Hord.
    destruct x as [a|m]; [|rewrite pair_ltb_record_after_error in Hord; discriminate].
    split; [reflexivity|]. simpl in Hord |- *. unfold pair_ltb in Hord. simpl in Hord.
    destruct (a_mean a) as [qa|], (a_mean b) as [qb|]; simpl in Hord; split;
      try congruence; try discriminate.
    intros qx qy [= <-] [= <-]. apply Qltb_ge in Hord.
    apply Qopp_le_compat in Hord. rewrite !Qopp_involutive in Hord. exact Hord.
Qed.

(** ** Sorting by status *)



Lemma classic_wf (a : anime) : well_formed a ∨ ¬ well_formed a.
Proof.
  unfold well_formed, count_ok.
  destruct (a_watching a) as [[?|]|], (a_completed a) as [[?|]|],
           (a_dropped a) as [[?|]|], (a_plan_to_watch a) as [[?|]|];
    first [left; repeat split; discriminate | right; intros (?&?&?&?); congruence].
Qed.


(** ** The counting period of a date *)

Lemma week_of_date (date season_start : instant) :
  let week := (get_week_and_period date season_start).1 in
  season_start + weeks (week - 1) <= date < season_start + weeks week.
Proof.
  unfold get_week_and_period, weeks, days. simpl.
  Z.to_euclidean_division_equations. lia.
Qed.

Lemma period_of_week (date season_start : instant) :
  let week := (get_week_and_period date season_start).1 in
  (get_week_and_period date season_start).2 =
    if (13 <? week) || (week <? 1) then PeriodNA
    else if week =? 13 then Period 13
    else Period (Z.min ((week + 1) / 2 * 2) 12).
Proof. reflexivity. Qed.

Lemma period_bounds_of_date (date season_start : instant) :
  season_start <= date < season_start + weeks 13 →
  ∃ n period_start period_end,
    1 <= (get_week_and_period date season_start).1 <= 13 ∧
    (get_week_and_period date season_start).2 = Period n ∧
    In n [2; 4; 6; 8; 10; 12; 13] ∧
    current_period_start (Period n) season_start = Some period_start ∧
    current_period_end (Period n) season_start = Some period_end ∧
    period_end - period_start = weeks 2 ∧
    period_start <= date < period_end.
Proof.
  intros Hin.
  pose proof (week_of_date date season_start) as Hweek.
  pose proof (period_of_week date season_start) as Hper.
  cbv zeta in Hweek, Hper.
  set (week := (get_week_and_period date season_start).1) in *.
  assert (1 <= week <= 13) as Hw by (unfold weeks, days in *; lia).
  rewrite Hper.
  assert (week = 1 ∨ week = 2 ∨ week = 3 ∨ week = 4 ∨ week = 5 ∨ week = 6 ∨
          week = 7 ∨ week = 8 ∨ week = 9 ∨ week = 10 ∨ week = 11 ∨ week = 12 ∨
          week = 13) as Hcases by lia.
  unfold weeks, days in Hweek, Hin.
  repeat destruct Hcases as [Hc|Hcases]; try rename Hcases into Hc;
    rewrite Hc in *; simpl;
    eexists _, _, _; (split; [lia|]); (split; [reflexivity|]);
    (split; [simpl; tauto|]); (split; [reflexivity|]); (split; [reflexivity|]);
    unfold weeks, days; split; Z.to_euclidean_division_equations; lia.
Qed.

(** X15.  For a date within the thirteen weeks of a season the week number
    is between 1 and 13, the counting period is one of 2, 4, 6, 8, 10, 12
    and 13, both boundaries are computed, they are two weeks apart, and
    the date lies between them. *)
Theorem date_inside_its_period (date season_start : instant) :
  season_start <= date < season_start + weeks 13 →
  ∃ n period_start period_end,
    1 <= (get_week_and_period date season_start).1 <= 13 ∧
    (get_week_and_period date season_start).2 = Period n ∧
    In n [2; 4; 6; 8; 10; 12; 13] ∧
    current_period_start (Period n) season_start = Some period_start ∧
    current_period_end (Period n) season_start = Some period_end ∧
    period_end - period_start = weeks 2 ∧
    period_start <= date < period_end.
Proof. apply period_bounds_of_date. Qed.

Lemma date_inside_its_period_witness :
  ∃ n period_start period_end,
    (get_week_and_period (weeks 4 + days 2) 0).2 = Period n ∧
    current_period_start (Period n) 0 = Some period_start ∧
    current_period_end (Period n) 0 = Some period_end ∧
    period_start <= weeks 4 + days 2 < period_end.
Proof.
  destruct (date_inside_its_period (weeks 4 + days 2) 0)
    as (n & ps & pe & _ & Hn & _ & Hs & He & _ & Hd).
  - unfold weeks, days. lia.
  - exists n, ps, pe. auto.
Defined.

Lemma period_na_iff (date season_start : instant) :
  (get_week_and_period date season_start).2 = PeriodNA ↔
  date < season_start ∨ season_start + weeks 13 <= date.
Proof.
  pose proof (week_of_date date season_start) as Hweek.
  pose proof (period_of_week date season_start) as Hper.
  cbv zeta in Hweek, Hper.
  set (week := (get_week_and_period date season_start).1) in *.
  rewrite Hper. unfold weeks, days in *.
  destruct (Z.ltb_spec 13 week); simpl; [split; [lia | reflexivity]|].
  destruct (Z.ltb_spec week 1); simpl; [split; [lia | reflexivity]|].
  destruct (week =? 13); split; try discriminate; lia.
Qed.

(** X16.  The counting period is ['n/a'] exactly for a date before the
    season start or thirteen weeks or more after it, and then the
    computation of the period boundaries raises. *)
Theorem period_na_outside_season (date season_start : instant) :
  ((get_week_and_period date season_start).2 = PeriodNA ↔
   date < season_start ∨ season_start + weeks 13 <= date) ∧
  ((get_week_and_period date season_start).2 = PeriodNA →
   current_period_start (get_week_and_period date season_start).2 season_start = None ∧
   current_period_end (get_week_and_period date season_start).2 season_start = None).
Proof.
  split; [apply period_na_iff | intros ->; split; reflexivity].
Qed.

(** ** Seasons *)

Lemma weekday_iso_week_start cal year : weekday (iso_week_start cal year) = 0.
Proof.
  unfold iso_week_start, weekday, days.
  Z.to_euclidean_division_equations. lia.
Qed.

(** From a season start that holds the date to the period boundaries. *)
Lemma bounds_from_season cal now ovr name season start :
  get_current_season_and_start cal now ovr name = Some (season, start) →
  (start <= now < start + weeks 13 →
   ∃ ps pe, script_period_bounds cal now ovr name = Some (ps, pe) ∧ ps <= now < pe) ∧
  (¬ (start <= now < start + weeks 13) →
   script_period_bounds cal now ovr name = None).
Proof.
  intros Hcs. unfold script_period_bounds. rewrite Hcs.
  cbn [mbind option_bind snd]. split.
  - intros Hin.
    destruct (period_bounds_of_date now start Hin)
      as (n & ps & pe & _ & Hn & _ & Hs & He & _ & Hd).
    rewrite Hn, Hs, He. cbn [mbind option_bind]. eauto.
  - intros Hout.
    assert ((get_week_and_period now start).2 = PeriodNA) as ->
      by (apply period_na_iff; lia).
    reflexivity.
Qed.

(** X17.  Without an override the four seasons start on a Monday, 13 weeks
    apart, and cover the 52 weeks from the Monday of the week of 4 January.
    For a date inside those 52 weeks the script finds the season that
    holds the date and computes a counting period that holds it too.  For
    any other date of that calendar year (the days of January before that
    Monday, a 53rd week) it falls back to the winter of the next year. *)
Theorem season_of_date (cal : calendar) (now : instant) :
  weekday (iso_week_start cal (year_of cal now)) = 0 ∧
  (iso_week_start cal (year_of cal now) <= now
     < iso_week_start cal (year_of cal now) + weeks 52 →
   ∃ season start ps pe,
     get_current_season_and_start cal now None None = Some (season, start) ∧
     In (season, start) (get_season_start cal (year_of cal now) None None) ∧
     start <= now < start + weeks 13 ∧
     script_period_bounds cal now None None = Some (ps, pe) ∧
     ps <= now < pe) ∧
  (¬ (iso_week_start cal (year_of cal now) <= now
        < iso_week_start cal (year_of cal now) + weeks 52) →
   get_current_season_and_start cal now None None =
     Some ("winter"%string, iso_week_start cal (year_of cal now + 1))).
Proof.
  split; [apply weekday_iso_week_start|].
  set (iso := iso_week_start cal (year_of cal now)).
  assert (∀ season start,
            get_current_season_and_start cal now None None = Some (season, start) →
            In (season, start) (get_season_start cal (year_of cal now) None None) →
            start <= now < start + weeks 13 →
            ∃ season start ps pe,
              get_current_season_and_start cal now None None = Some (season, start) ∧
              In (season, start) (get_season_start cal (year_of cal now) None None) ∧
              start <= now < start + weeks 13 ∧
              script_period_bounds cal now None None = Some (ps, pe) ∧
              ps <= now < pe) as Hpack.
  { intros season start Hcs Hin Hw.
    destruct (bounds_from_season _ _ _ _ _ _ Hcs) as [Hb _].
    destruct (Hb Hw) as (ps & pe & Hbounds & Hd).
    exists season, start, ps, pe. auto. }
  unfold get_current_season_and_start, get_season_start, season_week_starts in *.
  cbn [map List.find fst snd] in *. fold iso in Hpack |- *.
  unfold weeks, days in *.
  split.
  - intros Hin.
    destruct (Z.leb_spec (iso + 7 * 0 * 86400000000) now);
    destruct (Z.ltb_spec now (iso + 7 * 0 * 86400000000 + 7 * 13 * 86400000000));
      cbn [andb]; try lia;
      [eapply Hpack; [reflexivity | left; reflexivity | lia]|].
    destruct (Z.leb_spec (iso + 7 * 13 * 86400000000) now);
    destruct (Z.ltb_spec now (iso + 7 * 13 * 86400000000 + 7 * 13 * 86400000000));
      cbn [andb]; try lia;
      [eapply Hpack; [reflexivity | right; left; reflexivity | lia]|].
    destruct (Z.leb_spec (iso + 7 * 26 * 86400000000) now);
    destruct (Z.ltb_spec now (iso + 7 * 26 * 86400000000 + 7 * 13 * 86400000000));
      cbn [andb]; try lia;
      [eapply Hpack; [reflexivity | right; right; left; reflexivity | lia]|].
    destruct (Z.leb_spec (iso + 7 * 39 * 86400000000) now);
    destruct (Z.ltb_spec now (iso + 7 * 39 * 86400000000 + 7 * 13 * 86400000000));
      cbn [andb]; try lia.
    eapply Hpack; [reflexivity | right; right; right; left; reflexivity | lia].
  - intros Hout.
    repeat match goal with
    | |- context [?a <=? ?b] => destruct (Z.leb_spec a b)
    | |- context [?a <? ?b] => destruct (Z.ltb_spec a b)
    end; cbn [andb]; try lia;
    cbn [mbind option_bind season_lookup]; simpl; repeat f_equal; lia.
Qed.

Lemma season_of_date_witness :
  ∃ season start ps pe,
    get_current_season_and_start
      {| year_of := fun _ => 2024; jan4 := fun _ => days 3 |} (weeks 40) None None
      = Some (season, start) ∧
    start <= weeks 40 < start + weeks 13 ∧
    script_period_bounds
      {| year_of := fun _ => 2024; jan4 := fun _ => days 3 |} (weeks 40) None None
      = Some (ps, pe) ∧
    ps <= weeks 40 < pe.
Proof.
  destruct (season_of_date {| year_of := fun _ => 2024; jan4 := fun _ => days 3 |}
              (weeks 40)) as (_ & Hin & _).
  destruct Hin as (season & start & ps & pe & H1 & _ & H2 & H3 & H4).
  - vm_compute. split; [intros H; discriminate H | reflexivity].
  - exists season, start, ps, pe. auto.
Defined.

(** X18.  With a season override the only season is the overridden one,
    starting two hours after the given date.  Inside its thirteen weeks
    the script computes a counting period that holds the date; outside
    them one of the module-level statements raises: the lookup of the
    next winter unless the season is named winter, the subtraction
    ['n/a' - 2] otherwise. *)
Theorem season_override_window (cal : calendar) (now override_date : instant)
    (name : string) :
  (override_date + hours 2 <= now < override_date + hours 2 + weeks 13 →
   get_current_season_and_start cal now (Some override_date) (Some name) =
     Some (name, override_date + hours 2) ∧
   ∃ ps pe, script_period_bounds cal now (Some override_date) (Some name) = Some (ps, pe) ∧
            ps <= now < pe) ∧
  (¬ (override_date + hours 2 <= now < override_date + hours 2 + weeks 13) →
   script_period_bounds cal now (Some override_date) (Some name) = None ∧
   (name ≠ "winter"%string →
    get_current_season_and_start cal now (Some override_date) (Some name) = None)).
Proof.
  assert (get_current_season_and_start cal now (Some override_date) (Some name) =
          if (override_date + hours 2 <=? now) &&
             (now <? override_date + hours 2 + weeks 13)
          then Some (name, override_date + hours 2)
          else if String.eqb name "winter"
               then Some ("winter"%string, override_date + hours 2) else None) as Hcs.
  { unfold get_current_season_and_start, get_season_start.
    cbn [List.find fst snd season_lookup].
    destruct ((override_date + hours 2 <=? now) &&
              (now <? override_date + hours 2 + weeks 13)); [reflexivity|].
    destruct (String.eqb name "winter"); reflexivity. }
  split.
  - intros Hin.
    assert ((override_date + hours 2 <=? now) &&
            (now <? override_date + hours 2 + weeks 13) = true) as Hb.
    { apply andb_true_iff. split; [apply Z.leb_le | apply Z.ltb_lt]; lia. }
    rewrite Hb in Hcs. split; [exact Hcs|].
    destruct (bounds_from_season _ _ _ _ _ _ Hcs) as [Hbounds _]. apply Hbounds, Hin.
  - intros Hout.
    assert ((override_date + hours 2 <=? now) &&
            (now <? override_date + hours 2 + weeks 13) = false) as Hb.
    { apply andb_false_iff.
      destruct (Z.leb_spec (override_date + hours 2) now); [right | left; reflexivity].
      apply Z.ltb_ge. lia. }
    rewrite Hb in Hcs.
    destruct (String.eqb_spec name "winter") as [Hw|Hne].
    + split; [|intros Hn; contradiction].
      destruct (bounds_from_season _ _ _ _ _ _ Hcs) as [_ Hbounds]. apply Hbounds, Hout.
    + split; [|intros _; exact Hcs].
      unfold script_period_bounds. rewrite Hcs. reflexivity.
Qed.

(** ** The forum requests *)

Lemma fetch_page_loop_Some {J} (get : nat → page_outcome J) attempts (j : J) :
  ∀ remaining attempt,
    (attempt + remaining = attempts)%nat →
    fetch_page_loop get (attempts - 1) attempt remaining = Some j ↔
    ∃ k, (attempt <= k < attempts)%nat ∧ get k = PageOk (Some j) ∧
         ∀ i, (attempt <= i < k)%nat → get i = PageForbidden ∨ get i = PageFailed.
Proof.
  induction remaining as [|r IH]; intros attempt Hsum; simpl.
  - split; [discriminate|]. intros (k & Hk & _). lia.
  - destruct (get attempt) as [x| |] eqn:Hget.
    + split.
      * intros ->. exists attempt. split; [lia|]. split; [exact Hget|]. intros; lia.
      * intros (k & Hk & Hok & Hbefore).
        destruct (Nat.eq_dec k attempt) as [->|Hne]; [congruence|].
        destruct (Hbefore attempt ltac:(lia)); congruence.
    + rewrite IH by lia. split.
      * intros (k & Hk & Hok & Hbefore). exists k. split; [lia|]. split; [exact Hok|].
        intros i Hi. destruct (Nat.eq_dec i attempt) as [->|]; [auto | apply Hbefore; lia].
      * intros (k & Hk & Hok & Hbefore). exists k.
        assert (k ≠ attempt) by (intros ->; congruence).
        split; [lia|]. split; [exact Hok|]. intros i Hi. apply Hbefore. lia.
    + destruct (Nat.eqb_spec attempt (attempts - 1)) as [Hlast|Hnl].
      * split; [discriminate|]. intros (k & Hk & Hok & _).
        assert (k = attempt) by lia. subst. congruence.
      * rewrite IH by lia. split.
        -- intros (k & Hk & Hok & Hbefore). exists k. split; [lia|]. split; [exact Hok|].
           intros i Hi. destruct (Nat.eq_dec i attempt) as [->|]; [auto | apply Hbefore; lia].
        -- intros (k & Hk & Hok & Hbefore). exists k.
           assert (k ≠ attempt) by (intros ->; congruence).
           split; [lia|]. split; [exact Hok|]. intros i Hi. apply Hbefore. lia.
Qed.

(** X19.  [fetch_page] returns a document exactly when some attempt within
    [max(1, retry_limit)] is answered with it and no earlier attempt was
    answered with a document; an answer 403 uses up an attempt like any
    failure.  One attempt is made even with a retry limit of 0. *)
Theorem fetch_page_Some {J : Type} (cfg : settings) (get : nat → page_outcome J) :
  (∀ j, fetch_page cfg get = Some j ↔
        ∃ k, (k < attempts_of cfg)%nat ∧ get k = PageOk (Some j) ∧
             ∀ i, (i < k)%nat → get i = PageForbidden ∨ get i = PageFailed) ∧
  (∀ j, get 0%nat = PageOk j → fetch_page cfg get = j).
Proof.
  assert (Z.to_nat (Z.max 0 (retry_limit cfg - 1)) = (attempts_of cfg - 1)%nat) as Hlast
    by (unfold attempts_of; lia).
  unfold fetch_page. rewrite Hlast. split.
  - intros j. rewrite fetch_page_loop_Some by lia. split.
    + intros (k & Hk & Hok & Hb). exists k. split; [lia|]. split; [exact Hok|].
      intros i Hi. apply Hb. lia.
    + intros (k & Hk & Hok & Hb). exists k. split; [lia|]. split; [exact Hok|].
      intros i Hi. apply Hb. lia.
  - intros j H0. destruct (attempts_of_pos cfg) as [n ->]. simpl. rewrite H0. reflexivity.
Qed.

Lemma fetch_last_post_loop_Some (get : nat → last_post_outcome) (limit : Z) (d : detail) :
  ∀ remaining attempt,
    Z.of_nat (attempt + remaining) = Z.max 0 limit →
    fetch_last_post_loop get (limit - 1) attempt remaining = Some d ↔
    ∃ k, (attempt <= k)%nat ∧ Z.of_nat k < limit ∧ get k = LastAnswer (Some d) ∧
         ∀ i, (attempt <= i < k)%nat → get i = LastExc.
Proof.
  induction remaining as [|r IH]; intros attempt Hsum; simpl.
  - split; [discriminate|]. intros (k & Hk & Hl & _). lia.
  - destruct (get attempt) as [x|] eqn:Hget.
    + split.
      * intros ->. exists attempt. split; [lia|]. split; [lia|].
        split; [exact Hget|]. intros; lia.
      * intros (k & Hk & Hl & Hok & Hbefore).
        destruct (Nat.eq_dec k attempt) as [->|Hne]; [congruence|].
        rewrite (Hbefore attempt) in Hget by lia. discriminate.
    + destruct (Z.eqb_spec (Z.of_nat attempt) (limit - 1)) as [Hlast|Hnl].
      * split; [discriminate|]. intros (k & Hk & Hl & Hok & _).
        assert (k = attempt) by lia. subst. congruence.
      * rewrite IH by lia. split.
        -- intros (k & Hk & Hl & Hok & Hbefore). exists k. split; [lia|]. split; [lia|].
           split; [exact Hok|]. intros i Hi.
           destruct (Nat.eq_dec i attempt) as [->|]; [auto | apply Hbefore; lia].
        -- intros (k & Hk & Hl & Hok & Hbefore). exists k.
           assert (k ≠ attempt) by (intros ->; congruence).
           split; [lia|]. split; [lia|]. split; [exact Hok|].
           intros i Hi. apply Hbefore. lia.
Qed.

(** X20.  [fetch_last_post] returns a post exactly when some attempt below
    [retry_limit] finds it and every earlier attempt raised; an answer
    without a post ends the call at once.  With a retry limit of 0 or
    less it makes no request and returns nothing. *)
Theorem fetch_last_post_Some (cfg : settings) (get : nat → last_post_outcome) :
  (∀ d, fetch_last_post cfg get = Some d ↔
        ∃ k, Z.of_nat k < retry_limit cfg ∧ get k = LastAnswer (Some d) ∧
             ∀ i, (i < k)%nat → get i = LastExc) ∧
  (retry_limit cfg <= 0 → fetch_last_post cfg get = None).
Proof.
  assert (∀ d, fetch_last_post cfg get = Some d ↔
            ∃ k, Z.of_nat k < retry_limit cfg ∧ get k = LastAnswer (Some d) ∧
                 ∀ i, (i < k)%nat → get i = LastExc) as Hsome.
  { intros d. unfold fetch_last_post. rewrite fetch_last_post_loop_Some by lia. split.
    - intros (k & _ & Hl & Hok & Hb). exists k. split; [lia|]. split; [exact Hok|].
      intros i Hi. apply Hb. lia.
    - intros (k & Hl & Hok & Hb). exists k. split; [lia|]. split; [lia|].
      split; [exact Hok|]. intros i Hi. apply Hb. lia. }
  split; [exact Hsome|].
  intros Hle. destruct (fetch_last_post cfg get) as [d|] eqn:E; [|reflexivity].
  destruct (proj1 (Hsome d) eq_refl) as (k & Hk & _). lia.
Qed.

(** ** The paged feed *)

Lemma fetch_thread_details_from_spec (feed : nat → option topic_page) (n : nat) :
  (∀ k, (k < n)%nat → ∃ pg, feed k = Some pg ∧ has_next pg = true) →
  (feed n = None ∨ ∃ pg, feed n = Some pg ∧ has_next pg = false) →
  ∀ d page acc fuel,
    (page + d = n)%nat → (d < fuel)%nat →
    fetch_thread_details_from feed fuel page acc =
      Some (acc ++ flat_map (page_details feed) (seq page (S d))).
Proof.
  intros Hnext Hend. induction d as [|d IH]; intros page acc fuel Hsum Hfuel;
    (destruct fuel as [|f]; [lia|]); simpl.
  - assert (page = n) by lia. subst page. unfold page_details.
    destruct Hend as [Hn | (pg & Hn & Hlast)]; rewrite Hn.
    + rewrite app_nil_r. reflexivity.
    + rewrite Hlast, app_nil_r. reflexivity.
  - destruct (Hnext page ltac:(lia)) as (pg & Hpg & Hn).
    unfold page_details at 1. rewrite Hpg, Hn.
    rewrite IH by lia. rewrite <- app_assoc. reflexivity.
Qed.

(** X21.  When the feed of a thread has pages 0 to n-1 with a next page
    and page n either has none or cannot be fetched, the loop ends after
    page n (given the fuel for n+1 rounds) and returns, in feed order, the
    posts of those pages that have both an author and a date. *)
Theorem fetch_thread_details_pages (feed : nat → option topic_page) (n fuel : nat) :
  (∀ k, (k < n)%nat → ∃ pg, feed k = Some pg ∧ has_next pg = true) →
  (feed n = None ∨ ∃ pg, feed n = Some pg ∧ has_next pg = false) →
  (n < fuel)%nat →
  fetch_thread_details feed fuel =
    Some (flat_map (page_details feed) (seq 0 (S n))).
Proof.
  intros Hnext Hend Hfuel. unfold fetch_thread_details.
  rewrite (fetch_thread_details_from_spec feed n Hnext Hend n 0%nat [] fuel); auto.
Qed.

Lemma fetch_thread_details_pages_witness :
  fetch_thread_details feed_two_pages 5 =
    Some [{| username := "ann"; timestamp := 110 |};
          {| username := "bob"; timestamp := 150 |}].
Proof.
  rewrite (fetch_thread_details_pages feed_two_pages 1 5).
  - reflexivity.
  - intros k Hk. assert (k = 0%nat) by lia. subst. eexists. split; reflexivity.
  - right. eexists. split; reflexivity.
  - lia.
Defined.

(** ** Unique posters *)

Lemma thread_posters_elem p s e details u :
  u ∈ thread_posters p s e details ↔
  ∃ d, d ∈ details ∧ username d = u ∧ counted p s e (timestamp d) = true.
Proof.
  unfold thread_posters. rewrite thread_posters_acc. split.
  - intros [H | H]; [exfalso; set_solver | exact H].
  - intros H. right. exact H.
Qed.

Lemma counted_period_2 p s e t :
  counted p s e t = true → counted (Period 2) s e t = true.
Proof.
  unfold counted. simpl. destruct (period_is_2 p); [auto|].
  intros H. apply andb_true_iff in H as [_ H]. exact H.
Qed.

(** X22.  The posters counted for a thread are the authors of its posts
    inside the window, each once.  They are among the thread's all-time
    unique posters, and among the posters counted under period 2 with the
    same boundaries.  A merged last post whose author is already counted
    changes nothing. *)
Theorem thread_posters_facts (p : period) (period_start period_end : instant)
    (details : list detail) :
  thread_posters p period_start period_end details =
    list_to_set (map username
      (List.filter (fun d => counted p period_start period_end (timestamp d)) details)) ∧
  thread_posters p period_start period_end details ⊆ unique_posters details ∧
  thread_posters p period_start period_end details ⊆
    thread_posters (Period 2) period_start period_end details ∧
  (size (thread_posters p period_start period_end details)
     <= size (unique_posters details))%nat ∧
  (∀ d, username d ∈ thread_posters p period_start period_end details →
        thread_posters p period_start period_end (merge_last_post details (Some d)) =
        thread_posters p period_start period_end details).
Proof.
  assert (thread_posters p period_start period_end details ⊆ unique_posters details) as Hsub.
  { intros u Hu. apply thread_posters_elem in Hu as (d & Hd & <- & _).
    unfold unique_posters. apply elem_of_list_to_set, list_elem_of_fmap.
    exists d. auto. }
  split; [|split; [exact Hsub|split; [|split]]].
  - apply set_eq. intros u. rewrite thread_posters_elem, elem_of_list_to_set.
    rewrite list_elem_of_fmap. split.
    + intros (d & Hd & Hu & Hc). exists d. split; [auto|].
      apply list_elem_of_In, filter_In. split; [apply list_elem_of_In, Hd | exact Hc].
    + intros (d & Hu & Hd). apply list_elem_of_In, filter_In in Hd as [Hd Hc].
      exists d. split; [apply list_elem_of_In; exact Hd | auto].
  - intros u Hu. apply thread_posters_elem in Hu as (d & Hd & Hu & Hc).
    apply thread_posters_elem. exists d. split; [exact Hd|]. split; [exact Hu|].
    eapply counted_period_2. exact Hc.
  - apply subseteq_size. exact Hsub.
  - intros d Hd. apply set_eq. intros u. rewrite !thread_posters_elem. simpl. split.
    + intros (d' & Hd' & Hu & Hc). apply elem_of_app in Hd' as [Hd' | Hd'].
      * exists d'. auto.
      * apply list_elem_of_singleton in Hd'. subst d'. rewrite <- Hu.
        apply thread_posters_elem. exact Hd.
    + intros (d' & Hd' & Hu & Hc). exists d'. split; [|auto].
      apply elem_of_app. left. exact Hd'.
Qed.

(** ** The post counts *)





(** ** The breakdown per user *)

Lemma user_lookup_bump u u' t l :
  user_lookup u (bump u' t l) =
    if String.eqb u' u
    then match user_lookup u l with
         | Some (c, f) => Some (S c, f)
         | None => Some (1%nat, t)
         end
    else user_lookup u l.
Proof.
  induction l as [|[v [c f]] l IH]; simpl.
  - destruct (String.eqb u' u); reflexivity.
  - destruct (String.eqb_spec v u') as [->|Hne]; simpl.
    + destruct (String.eqb u' u); reflexivity.
    + rewrite IH. destruct (String.eqb_spec v u) as [->|Hvu].
      * destruct (String.eqb_spec u' u); [congruence | reflexivity].
      * reflexivity.
Qed.

Lemma user_posts_acc u details acc :
  user_lookup u (fold_left (fun a d => bump (username d) (timestamp d) a) details acc) =
    match user_lookup u acc,
          List.filter (fun d => String.eqb (username d) u) details with
    | Some (c, f), ds => Some ((c + length ds)%nat, f)
    | None, [] => None
    | None, d :: ds => Some (S (length ds), timestamp d)
    end.
Proof.
  revert acc. induction details as [|d details IH]; intros acc; simpl.
  - destruct (user_lookup u acc) as [[c f]|]; [rewrite Nat.add_0_r|]; reflexivity.
  - rewrite IH, user_lookup_bump.
    destruct (String.eqb (username d) u); simpl.
    + destruct (user_lookup u acc) as [[c f]|]; simpl.
      * f_equal. f_equal. lia.
      * reflexivity.
    + reflexivity.
Qed.

(** X24.  In the breakdown of a thread a user has an entry exactly when
    they have a post in the thread; the entry holds the number of their
    posts, a merged last post included, and the date of the first of them
    in list order. *)
Theorem user_posts_entry (details : list detail) (u : string) :
  user_lookup u (user_posts details) =
    match List.filter (fun d => String.eqb (username d) u) details with
    | [] => None
    | d :: ds => Some (S (length ds), timestamp d)
    end.
Proof.
  unfold user_posts. rewrite user_posts_acc. reflexivity.
Qed.

(** ** The failure list of the primary batch *)

(** X25.  After the primary batch the failure list is the list of the
    requested ids whose fetch returned nothing, in request order; an id
    is in it exactly when it was requested and is absent from the
    mapping; and for a list without repetition mapping and failure list
    together have as many entries as ids were requested. *)
Theorem primary_failures_recorded (cfg : settings) (tr : transport)
    (anime_ids secondary_anime_ids : list Z) :
  failed_anime_ids (run_fetch cfg tr anime_ids secondary_anime_ids) =
    List.filter (fun id => is_failure (response cfg tr id)) anime_ids ∧
  (∀ id, In id (failed_anime_ids (run_fetch cfg tr anime_ids secondary_anime_ids)) ↔
         In id anime_ids ∧
         dict_mem id (datas (run_fetch cfg tr anime_ids secondary_anime_ids)) = false) ∧
  (NoDup anime_ids →
   (length (datas (run_fetch cfg tr anime_ids secondary_anime_ids)) +
    length (failed_anime_ids (run_fetch cfg tr anime_ids secondary_anime_ids)))%nat
   = length anime_ids).
Proof.
  split; [apply failed_list|]. split.
  - intros id. apply (primary_batch_accounting cfg tr anime_ids secondary_anime_ids id).
  - apply batch_length.
Qed.

(** ** What the task pool computes *)

Lemma no_slot_no_step cfg tr ids p :
  max_conc_requests cfg <= 0 →
  reachable cfg tr ids p → p = init_pool cfg ids.
Proof.
  intros Hcap. unfold reachable. revert p.
  apply (rtc_ind_r (fun p => p = init_pool cfg ids)); [reflexivity|].
  intros p p' _ Hstep ->.
  assert (∀ i, tasks (init_pool cfg ids) !! i = Some Queued ∨
               tasks (init_pool cfg ids) !! i = None) as Hq.
  { intros i. unfold init_pool. simpl. rewrite list_lookup_fmap.
    destruct (ids !! i); simpl; auto. }
  inversion Hstep as [i n q Hi Hp | i id k q Hi | i id k r q Hi | i k q Hi]; subst;
    try (destruct (Hq i) as [E|E]; rewrite E in Hi; discriminate).
  unfold init_pool in Hp. simpl in Hp. lia.
Qed.

(** X26.  In every state the batch can reach, a task that has returned
    holds exactly the response that [gather] lists for its title.  With a
    positive cap the batch can run until every task has returned; with a
    cap of 0 no task ever enters the block. *)
Theorem pool_results (cfg : settings) (tr : transport) (anime_ids : list Z) :
  (∀ p i id r, reachable cfg tr anime_ids p →
     anime_ids !! i = Some id → tasks p !! i = Some (Finished r) →
     gather cfg tr anime_ids !! i = Some r) ∧
  (0 < max_conc_requests cfg →
   ∃ p, reachable cfg tr anime_ids p ∧
        tasks p = map Finished (gather cfg tr anime_ids)) ∧
  (max_conc_requests cfg = 0 →
   ∀ p, reachable cfg tr anime_ids p → in_flight p = 0%nat ∧
        tasks p = map (fun _ => Queued) anime_ids).
Proof.
  split; [|split].
  - intros p i id r Hreach Hid Ht.
    pose proof (tasks_agree cfg tr anime_ids p Hreach i id _ Hid Ht) as Hagree.
    simpl in Hagree. subst r. unfold gather. rewrite list_lookup_fmap, Hid. reflexivity.
  - apply pool_can_finish.
  - intros Hcap p Hreach.
    rewrite (no_slot_no_step cfg tr anime_ids p ltac:(lia) Hreach).
    split; [|reflexivity]. unfold in_flight, init_pool. simpl. clear.
    induction anime_ids as [|id ids IH]; [reflexivity | exact IH].
Qed.

(** ** Descending keys *)

Lemma key_derived_Q_order (proj : derived → Q) l out l1 a l2 b da db :
  sorted pair_ltb (key_derived proj) l = Some out →
  out = l1 ++ RData a :: l2 → In (RData b) l2 →
  calculate_variables a = Some da → calculate_variables b = Some db →
  (proj db <= proj da)%Q.
Proof.
  intros Hs Hout Hin Ha Hb.
  assert (pair_ltb (false, Fin (- proj db)%Q) (false, Fin (- proj da)%Q) = false) as Hord.
  { eapply (sorted_order pair_ltb pair_ltb_asym pair_ltb_negtrans);
      [exact Hs | exact Hout | exact Hin | |]; simpl.
    - rewrite Hb. reflexivity.
    - rewrite Ha. reflexivity. }
  unfold pair_ltb in Hord. simpl in Hord. apply Qltb_ge in Hord.
  apply Qopp_le_compat in Hord. rewrite !Qopp_involutive in Hord. exact Hord.
Qed.

Lemma key_drop_rate_derived x : key_drop_rate x = key_derived drop_rate x.
Proof.
  destruct x as [a|msg]; simpl; [|reflexivity].
  destruct (calculate_variables a) as [d|]; simpl; [|reflexivity].
  unfold drop_rate. destruct (0 <? d_watch_drop d); reflexivity.
Qed.

Lemma sorted_ext {K A} (ltb : K → K → bool) (key key' : A → option K) l :
  (∀ x, key x = key' x) → sorted ltb key l = sorted ltb key' l.
Proof.
  intros Hext. unfold sorted. f_equal.
  apply mapM_ext. intros x. unfold with_key. rewrite Hext. reflexivity.
Qed.

Lemma key_derived_defined proj l :
  is_Some (sorted pair_ltb (key_derived proj) l) ↔
  ∀ a, In (RData a) l → well_formed a.
Proof.
  rewrite sorted_Some_iff. split.
  - intros H a Ha. specialize (H _ Ha). simpl in H.
    destruct (calculate_variables a) eqn:E; [|destruct H; discriminate].
    destruct (classic_wf a) as [Hwf|Hnwf]; [exact Hwf|].
    apply calculate_variables_None in Hnwf. congruence.
  - intros H [a|msg] Hx; simpl; [|eauto].
    rewrite (calculate_variables_wf _ (H a Hx)). simpl. eauto.
Qed.

(** X27.  Sorting by a count column (watching, completed, W+C, dropped,
    plan-to-watch) raises exactly when the counts of some record cannot
    be read.  When it returns, the derived values of that column descend
    along the records of the output. *)
Theorem sort_data_by_count
    (pc : option (gmap Z Z)) (d : pydict row) (col : string)
    (lacks : anime → bool) (proj : derived → Z) :
  In (col, (lacks, proj)) count_columns →
  (is_Some (sort_data pc d col) ↔ ∀ a, In (RData a) (dict_values d) → well_formed a) ∧
  (∀ out l1 a l2 b da db, sort_data pc d col = Some out →
     out = l1 ++ RData a :: l2 → In (RData b) l2 →
     calculate_variables a = Some da → calculate_variables b = Some db →
     proj db <= proj da).
Proof.
  intros Hcol. rewrite (sort_data_count_column pc d col lacks proj Hcol).
  split; [apply key_derived_defined|].
  intros out l1 a l2 b da db Hs Hout Hin Ha Hb.
  pose proof (key_derived_Q_order _ _ _ _ _ _ _ _ _ Hs Hout Hin Ha Hb) as H.
  unfold Qle in H. simpl in H. lia.
Qed.

Lemma sort_data_by_count_witness :
  is_Some (sort_data None rows_unwatched_then_watched "E") ↔
  ∀ a, In (RData a) (dict_values rows_unwatched_then_watched) → well_formed a.
Proof.
  apply (sort_data_by_count None rows_unwatched_then_watched "E"
           (fun a => bool_decide (a_watching a = None)) d_watching).
  left. reflexivity.
Defined.

(** X28.  Sorting by drop rate or by PTW ratio raises exactly when the
    counts of some record cannot be read.  When it returns, the drop
    rates, respectively the PTW ratios, descend along the records of the
    output. *)
Theorem sort_data_by_ratio (pc : option (gmap Z Z)) (d : pydict row) :
  (is_Some (sort_data pc d "I") ↔ ∀ a, In (RData a) (dict_values d) → well_formed a) ∧
  (is_Some (sort_data pc d "K") ↔ ∀ a, In (RData a) (dict_values d) → well_formed a) ∧
  (∀ out l1 a l2 b da db, sort_data pc d "I" = Some out →
     out = l1 ++ RData a :: l2 → In (RData b) l2 →
     calculate_variables a = Some da → calculate_variables b = Some db →
     (drop_rate db <= drop_rate da)%Q) ∧
  (∀ out l1 a l2 b da db, sort_data pc d "K" = Some out →
     out = l1 ++ RData a :: l2 → In (RData b) l2 →
     calculate_variables a = Some da → calculate_variables b = Some db →
     (ptw_ratio db <= ptw_ratio da)%Q).
Proof.
  change (sort_data pc d "I") with (sorted pair_ltb key_drop_rate (dict_values d)).
  change (sort_data pc d "K")
    with (sorted pair_ltb (key_derived d_active_ratio) (dict_values d)).
  rewrite (sorted_ext pair_ltb key_drop_rate (key_derived drop_rate) _
             key_drop_rate_derived).
  split; [apply key_derived_defined|]. split; [apply key_derived_defined|].
  split.
  - intros out l1 a l2 b da db Hs Hout Hin Ha Hb.
    exact (key_derived_Q_order drop_rate _ _ _ _ _ _ _ _ Hs Hout Hin Ha Hb).
  - intros out l1 a l2 b da db Hs Hout Hin Ha Hb. unfold ptw_ratio.
    exact (key_derived_Q_order d_active_ratio _ _ _ _ _ _ _ _ Hs Hout Hin Ha Hb).
Qed.
